(** * Table column resize utilities (module table/tablecolumnresize/utils)

    A shallow embedding of the helper functions of the table column resize
    feature, together with the properties their specification states:
    [getAffectedTables], [getColumnIndex], [toPrecision], [clamp],
    [fillArray], [sumArray], [normalizeColumnWidths] and
    [calculateMissingColumnWidths], and the functions that measure the
    rendered table or write to the view: [getColumnMinWidthAsPercentage],
    [getTableWidthInPixels], [getElementWidthInPixels],
    [insertColumnResizerElement] and [getDomCellOuterWidth].  The number of
    columns of a table ([getNumberOfColumn]) is asked of a plugin that is
    not among the sources, and is not embedded.

    JavaScript numbers are modelled by exact rational arithmetic extended
    with the three special values [NaN], [+Infinity] and [-Infinity]: the
    rounding that binary64 applies to the result of [+], [*] and [/] is
    not modelled (a decimal literal has its exact value), and the two zeros
    are identified.  What is proved about sums and equalities of widths is
    therefore proved of their decimal values.  Strings are sequences of
    8-bit characters. *)

From Stdlib Require Import ZArith QArith Qcanon Qround Ascii String List Lia.
From stdpp Require Import base decidable option list numbers gmap.

Set Default Proof Using "Type".
Local Open Scope Z_scope.

(** ** JavaScript numbers *)

Module Js.

Inductive number : Type :=
| NaN
| PosInf
| NegInf
| Fin (q : Qc).

#[global] Instance number_eq_dec : EqDecision number.
Proof. solve_decision. Defined.

Definition of_Z (z : Z) : number := Fin (Qc_of_Z z).

Definition isNaN (x : number) : bool :=
  match x with NaN => true | _ => false end.

Definition neg (x : number) : number :=
  match x with
  | NaN => NaN
  | PosInf => NegInf
  | NegInf => PosInf
  | Fin q => Fin (- q)%Qc
  end.

(** The infinity whose sign is the sign of [q]; [0 * Infinity] is [NaN]. *)
Definition signed_inf (q : Qc) : number :=
  match (q ?= 0)%Qc with
  | Eq => NaN
  | Gt => PosInf
  | Lt => NegInf
  end.

Definition add (x y : number) : number :=
  match x, y with
  | NaN, _ | _, NaN => NaN
  | PosInf, NegInf | NegInf, PosInf => NaN
  | PosInf, _ | _, PosInf => PosInf
  | NegInf, _ | _, NegInf => NegInf
  | Fin a, Fin b => Fin (a + b)%Qc
  end.

Definition sub (x y : number) : number := add x (neg y).

Definition mul (x y : number) : number :=
  match x, y with
  | NaN, _ | _, NaN => NaN
  | Fin a, Fin b => Fin (a * b)%Qc
  | PosInf, Fin b | Fin b, PosInf => signed_inf b
  | NegInf, Fin b | Fin b, NegInf => neg (signed_inf b)
  | PosInf, PosInf | NegInf, NegInf => PosInf
  | PosInf, NegInf | NegInf, PosInf => NegInf
  end.

(** A zero divisor is the positive zero: every divisor of the functions
    below is a power of ten, a count, or a sum that [reduce] started from
    [0], and none of them can be the negative zero. *)
Definition div (x y : number) : number :=
  match x, y with
  | NaN, _ | _, NaN => NaN
  | Fin a, Fin b =>
      if decide (b = 0%Qc) then signed_inf a else Fin (a / b)%Qc
  | Fin _, (PosInf | NegInf) => Fin 0%Qc
  | PosInf, Fin b => if decide (b < 0)%Qc then NegInf else PosInf
  | NegInf, Fin b => if decide (b < 0)%Qc then PosInf else NegInf
  | (PosInf | NegInf), (PosInf | NegInf) => NaN
  end.

(** [x <= y], [x >= y], [x < y] and [x === y]: false as soon as an operand
    is [NaN]. *)
Definition le (x y : number) : bool :=
  match x, y with
  | NaN, _ | _, NaN => false
  | NegInf, _ | _, PosInf => true
  | _, NegInf | PosInf, _ => false
  | Fin a, Fin b => bool_decide (a ≤ b)%Qc
  end.

Definition ge (x y : number) : bool := le y x.


Definition strict_eq (x y : number) : bool :=
  match x, y with
  | NaN, _ | _, NaN => false
  | _, _ => bool_decide (x = y)
  end.

(** [Math.max(x, y)]. *)
Definition max (x y : number) : number :=
  match x, y with
  | NaN, _ | _, NaN => NaN
  | _, _ => if le x y then y else x
  end.

(** [Math.round(x)]: the nearest integer, a tie going towards
    [+Infinity]. *)
Definition round (x : number) : number :=
  match x with
  | Fin q => of_Z (Qfloor (q + Q2Qc (1 # 2))%Qc)
  | _ => x
  end.

(** [Math.pow(10, n)] for a natural exponent. *)
Definition pow10 (n : nat) : number := of_Z (10 ^ Z.of_nat n).

(** *** Strings *)

Local Open Scope string_scope.
Local Open Scope Z_scope.

(** White space and line terminators among the 8-bit characters: TAB, LF,
    VT, FF, CR, SP and NBSP. *)
Definition is_whitespace (c : ascii) : bool :=
  let n := N_of_ascii c in
  ((9 <=? n) && (n <=? 13) || (n =? 32) || (n =? 160))%N.

Fixpoint trimStart (s : string) : string :=
  match s with
  | String c r => if is_whitespace c then trimStart r else s
  | EmptyString => EmptyString
  end.

Fixpoint trimEnd (s : string) : string :=
  match s with
  | String c r =>
      match trimEnd r with
      | EmptyString => if is_whitespace c then EmptyString else String c EmptyString
      | r' => String c r'
      end
  | EmptyString => EmptyString
  end.

(** No character of [s] is white space. *)
Fixpoint no_whitespace (s : string) : bool :=
  match s with
  | String c r => negb (is_whitespace c) && no_whitespace r
  | EmptyString => true
  end.

(** [String.prototype.trim]. *)
Definition trim (s : string) : string := trimEnd (trimStart s).

(** *** [parseFloat] *)

Definition digit_value (c : ascii) : option Z :=
  let n := Z.of_N (N_of_ascii c) in
  if (48 <=? n) && (n <=? 57) then Some (n - 48) else None.

(** The longest prefix of decimal digits, most significant first, and what
    follows it. *)
Fixpoint read_digits (s : string) : list Z * string :=
  match s with
  | String c r =>
      match digit_value c with
      | Some d => let '(ds, rest) := read_digits r in (d :: ds, rest)
      | None => ([], s)
      end
  | EmptyString => ([], s)
  end.

Definition digits_value (ds : list Z) : Z :=
  fold_left (fun acc d => 10 * acc + d) ds 0.

Definition read_sign (s : string) : bool * string :=
  match s with
  | String "-" r => (true, r)
  | String "+" r => (false, r)
  | _ => (false, s)
  end.

(** [10 ^ e] for an integer exponent. *)
Definition pow10q (e : Z) : Qc :=
  if 0 <=? e then Qc_of_Z (10 ^ e) else (/ Qc_of_Z (10 ^ (- e)))%Qc.

(** The value of an [ExponentPart] at the head of [s], and [0] when there
    is none: an [e] that no digit follows is not part of the literal. *)
Definition read_exponent (s : string) : Z :=
  match s with
  | String c r =>
      if (c =? "e")%char || (c =? "E")%char then
        let '(negative, r') := read_sign r in
        match read_digits r' with
        | ([], _) => 0
        | (ds, _) => if negative then - digits_value ds else digits_value ds
        end
      else 0
  | EmptyString => 0
  end.

(** The longest prefix that is a [StrUnsignedDecimalLiteral]. *)
Definition read_unsigned (s : string) : number :=
  if String.prefix "Infinity" s then PosInf
  else
    let '(ip, r1) := read_digits s in
    let '(fp, r2) :=
      match r1 with
      | String "." r => read_digits r
      | _ => ([], r1)
      end in
    match (ip ++ fp)%list with
    | [] => NaN
    | ds => Fin (Qc_of_Z (digits_value ds)
                 * pow10q (read_exponent r2 - Z.of_nat (length fp)))%Qc
    end.

Definition parseFloat_string (s : string) : number :=
  let '(negative, r) := read_sign (trimStart s) in
  if negative then neg (read_unsigned r) else read_unsigned r.

(** The values that the utilities pass to [parseFloat]: strings and
    numbers. *)
Inductive value : Type :=
| Str (s : string)
| Num (n : number).

(** [parseFloat] converts its argument to a string first; a number prints
    and parses back to itself. *)
Definition parseFloat (v : value) : number :=
  match v with
  | Str s => parseFloat_string s
  | Num n => n
  end.

(** *** [Number.prototype.toString] *)

Definition digit_char (d : Z) : ascii := ascii_of_N (Z.to_N (48 + d)).

Definition string_of_digits (ds : list Z) : string :=
  fold_right (fun d s => String (digit_char d) s) EmptyString ds.

(** The [w] low-order decimal digits of [n], most significant first. *)
Fixpoint to_digits (w : nat) (n : Z) : list Z :=
  match w with
  | O => []
  | S w' => (to_digits w' (n / 10) ++ [n mod 10])%list
  end.

Fixpoint count_digits_fuel (fuel : nat) (n : Z) : nat :=
  match fuel with
  | O => 1
  | S f => if n <? 10 then 1 else S (count_digits_fuel f (n / 10))
  end.

(** The number of decimal digits of [n >= 0] (one for zero). *)
Definition count_digits (n : Z) : nat :=
  count_digits_fuel (Z.to_nat (Z.log2 n)) n.

Definition digits_of (n : Z) : list Z := to_digits (count_digits n) n.

Fixpoint trailing_zeros (fuel : nat) (n : Z) : nat :=
  match fuel with
  | O => 0
  | S f => if n mod 10 =? 0 then S (trailing_zeros f (n / 10)) else 0
  end.

(** [num / den = m / 10 ^ d] with the least [d]: found by cancelling factors
    of ten, then of two or five, from the denominator. *)
Fixpoint decimal_search (fuel : nat) (num den : Z) (d : nat) : option (Z * nat) :=
  if den =? 1 then Some (num, d)
  else
    match fuel with
    | O => None
    | S f =>
        if den mod 10 =? 0 then decimal_search f num (den / 10) (S d)
        else if den mod 2 =? 0 then decimal_search f (num * 5) (den / 2) (S d)
        else if den mod 5 =? 0 then decimal_search f (num * 2) (den / 5) (S d)
        else None
    end.

(** The decimal expansion [m / 10 ^ d] of [q >= 0].  A rational without a
    finite expansion is no value of a fixed-point width; it prints rounded
    to twenty fractional digits. *)
Definition decimal_of (q : Qc) : Z * nat :=
  let den := Zpos (Qden q) in
  match decimal_search (Z.to_nat (Z.log2 den)) (Qnum q) den 0 with
  | Some r => r
  | None => (Qfloor (q * Qc_of_Z (10 ^ 20) + Q2Qc (1 # 2))%Qc, 20%nat)
  end.

(** The fraction digits after their point, and the exponent after its
    letter and sign. *)
Definition fraction_string (fp : list Z) : string :=
  match fp with
  | [] => ""
  | _ => "." ++ string_of_digits fp
  end.

Definition exponent_string (e : Z) : string :=
  "e" ++ (if 0 <=? e then "+" else "-") ++ string_of_digits (digits_of (Z.abs e)).

(** [Number::toString] of a positive [m / 10 ^ d]: with [n] the position of
    the decimal point after the first significant digit, plain notation
    when [-6 < n <= 21] and exponent notation otherwise. *)
Definition unsigned_toString (m : Z) (d : nat) : string :=
  let n := Z.of_nat (count_digits m) - Z.of_nat d in
  if (-6 <? n) && (n <=? 21) then
    string_of_digits (digits_of (m / 10 ^ Z.of_nat d))
    ++ fraction_string (to_digits d m)
  else
    let z := trailing_zeros (count_digits m) m in
    let s := m / 10 ^ Z.of_nat z in
    let k := (count_digits m - z)%nat in
    string_of_digits (to_digits 1 (s / 10 ^ Z.of_nat (k - 1)))
    ++ fraction_string (to_digits (k - 1) s)
    ++ exponent_string (n - 1).

Definition toString (x : number) : string :=
  match x with
  | NaN => "NaN"
  | PosInf => "Infinity"
  | NegInf => "-Infinity"
  | Fin q =>
      let '(m, d) := decimal_of (if decide (q < 0)%Qc then - q else q)%Qc in
      if m =? 0 then "0"
      else (if decide (q < 0)%Qc then "-" else "") ++ unsigned_toString m d
  end.

End Js.

(** ** Characters around a numeric literal *)

(** A character that ends a numeric literal wherever it stands: it is no
    digit, sign, point or exponent mark, and no letter of [Infinity]. *)
Definition ends_literal (c : ascii) : bool :=
  match Js.digit_value c with
  | Some _ => false
  | None =>
      negb (existsb (Ascii.eqb c)
              ["+"; "-"; "."; "e"; "E"; "I"; "n"; "f"; "i"; "t"; "y"]%char)
  end.

(** A unit of measure, as [%] or [px]: a string without white space whose
    first character ends a numeric literal. *)
Definition is_unit (unit : string) : bool :=
  match unit with
  | String c _ => ends_literal c && Js.no_whitespace unit
  | EmptyString => false
  end.

(** Every character of [s] is white space. *)
Fixpoint all_whitespace (s : string) : bool :=
  match s with
  | String c r => Js.is_whitespace c && all_whitespace r
  | EmptyString => true
  end.

(** ** The document model

    The engine (module engine/model: nodes, positions, ranges and their
    traversal, and the differ) is not among the sources.  A document is a
    tree of text nodes and elements; a node is referred to by its path from
    the root, so a [Set] of elements is a set of paths and a [Map] keyed by
    elements is a map keyed by paths. *)

Module Model.

(** Modelled from the spec: the attributes of an element, of which the two
    that the utilities read are kept: the [columnWidths] of a table and the
    [colspan] of a cell. *)
Record Attributes : Type := {
  columnWidths : option string;
  colspan : option Js.number
}.

#[local] Unset Elimination Schemes.

(** Modelled from the spec: a node of the document, a text node or a named
    element with its attributes and the ordered sequence of its children. *)
Inductive Node : Type :=
| Text (data : string)
| Element (name : string) (attributes : Attributes) (children : list Node).
#[local] Set Elimination Schemes.

(** Induction on a node gives the property for every child of an
    element. *)
Fixpoint Node_induction (P : Node → Prop)
    (Htext : ∀ data, P (Text data))
    (Helement : ∀ name attributes children,
       Forall P children → P (Element name attributes children))
    (node : Node) : P node :=
  match node with
  | Text data => Htext data
  | Element name attributes children =>
      Helement name attributes children
        ((fix all (children : list Node) : Forall P children :=
            match children with
            | [] => @List.Forall_nil Node P
            | child :: children' =>
                @List.Forall_cons Node P child children'
                  (Node_induction P Htext Helement child) (all children')
            end) children)
  end.

(** Modelled from the spec: the way from the root to a node, one child
    index after the other. *)
Definition Path : Type := list nat.

(** [node.is( 'element' )]. *)
Definition is_element (node : Node) : bool :=
  match node with Element _ _ _ => true | Text _ => false end.

(** [node.name]: undefined on a text node. *)
Definition name_of (node : Node) : option string :=
  match node with Element name _ _ => Some name | Text _ => None end.

(** A text node carries neither of the two attributes. *)
Definition attributes_of (node : Node) : Attributes :=
  match node with
  | Element _ attributes _ => attributes
  | Text _ => {| columnWidths := None; colspan := None |}
  end.

(** [element.getChild( index )], and the node that a path leads to. *)
Definition getChild (node : Node) (index : nat) : option Node :=
  match node with
  | Element _ _ children => children !! index
  | Text _ => None
  end.

Fixpoint nodeAt (node : Node) (path : Path) : option Node :=
  match path with
  | [] => Some node
  | index :: path' =>
      match getChild node index with
      | Some child => nodeAt child path'
      | None => None
      end
  end.

(** [element.getAttribute( 'colspan' )] and
    [element.hasAttribute( 'columnWidths' )], for the element at [path]. *)
Definition getAttribute_colspan (root : Node) (path : Path) : option Js.number :=
  nodeAt root path ≫= fun node => colspan (attributes_of node).

Definition hasAttribute_columnWidths (node : Node) : bool :=
  bool_decide (is_Some (columnWidths (attributes_of node))).

(** Modelled from the spec: a position lies in the element at [parent],
    before its child number [offset]; a range lies between two
    positions. *)
Record Position : Type := { parent : Path; offset : nat }.

Record Range : Type := { start : Position; end_ : Position }.

(** Modelled from the spec: [position.nodeAfter], the node that follows the
    position; null at the end of the parent. *)
Definition nodeAfter (root : Node) (position : Position) : option Path :=
  let path := parent position ++ [offset position] in
  match nodeAt root path with
  | Some _ => Some path
  | None => None
  end.

(** The deepest node named [parentName] on the way from [node], found at
    [here], down along [path]. *)
Fixpoint deepest_named (parentName : string) (node : Node) (here path : Path)
    (found : option Path) : option Path :=
  let found' :=
    if bool_decide (name_of node = Some parentName) then Some here else found in
  match path with
  | [] => found'
  | index :: path' =>
      match getChild node index with
      | Some child => deepest_named parentName child (here ++ [index]) path' found'
      | None => None
      end
  end.

(** Modelled from the spec: [position.findAncestor( parentName )], the
    closest element of that name among the parent of the position and its
    ancestors. *)
Definition findAncestor (root : Node) (position : Position) (parentName : string)
    : option Path :=
  deepest_named parentName root [] (parent position) None.

(** The items of the children of the element found at [here], child number
    [index] first. *)
Definition getChildrenItems (getItems : Node → Path → list Path) (here : Path)
    : list Node → nat → list Path :=
  fix walk (children : list Node) (index : nat) : list Path :=
    match children with
    | [] => []
    | child :: children' =>
        getItems child (here ++ [index]) ++ walk children' (S index)
    end.

(** Modelled from the spec: [model.createRangeOn( node ).getItems()], the
    walk over the full range of a node: the node found at [here] and
    everything inside it, in document order. *)
Fixpoint getItems (node : Node) (here : Path) : list Path :=
  here ::
  match node with
  | Element _ _ children => getChildrenItems getItems here children 0%nat
  | Text _ => []
  end.

(** Modelled from the spec: a change record of the differ, which has the
    kind of the change, the name of the inserted or removed item and its
    position, or the range of an attribute change. *)
Inductive DiffItem : Type :=
| DiffItemInsert (name : string) (position : Position)
| DiffItemRemove (name : string) (position : Position)
| DiffItemAttribute (range : Range).

(** An example document: a table of two rows whose first cell holds a
    nested table; both tables carry column widths. *)
Definition noAttributes : Attributes :=
  {| columnWidths := None; colspan := None |}.

Definition widths (value : string) : Attributes :=
  {| columnWidths := Some value; colspan := None |}.

Definition paragraph (data : string) : Node :=
  Element "paragraph" noAttributes [Text data].

Definition nestedTablesDocument : Node :=
  Element "$root" noAttributes
    [ Element "table" (widths "50%,50%")
        [ Element "tableRow" noAttributes
            [ Element "tableCell" noAttributes
                [ Element "table" (widths "100%")
                    [ Element "tableRow" noAttributes
                        [ Element "tableCell" noAttributes [paragraph "a"] ] ] ];
              Element "tableCell" noAttributes [paragraph "b"] ];
          Element "tableRow" noAttributes
            [ Element "tableCell" noAttributes [paragraph "c"];
              Element "tableCell" noAttributes [paragraph "d"] ] ] ].

(** Another one: a row of three cells, the last of which spans three
    columns. *)
Definition spans (columns : Z) : Attributes :=
  {| columnWidths := None; colspan := Some (Js.of_Z columns) |}.

Definition spanningCellDocument : Node :=
  Element "$root" noAttributes
    [ Element "table" noAttributes
        [ Element "tableRow" noAttributes
            [ Element "tableCell" noAttributes [paragraph "a"];
              Element "tableCell" noAttributes [paragraph "b"];
              Element "tableCell" (spans 3) [paragraph "c"] ] ] ].

End Model.

(** ** The utilities *)

Section Utils.

Import Model.
Local Open Scope string_scope.

(** The constants of [./constants], which is not among the sources, are
    parameters: the number of digits kept after the decimal point and the
    minimum width of a column, in percent. *)
Variable COLUMN_WIDTH_PRECISION : nat.
Variable COLUMN_MIN_WIDTH_AS_PERCENTAGE : Qc.

(** [[ 'table', 'tableRow', 'tableCell' ].includes( name )], also for the
    undefined name of a text node. *)
Definition includes (names : list string) (name : option string) : bool :=
  match name with
  | Some name => existsb (String.eqb name) names
  | None => false
  end.

(** The [switch] over the type of a change: the position that the walk
    starts from, or null. *)
Definition referencePosition (root : Node) (change : DiffItem) : option Position :=
  match change with
  | DiffItemInsert name position =>
      if includes ["table"; "tableRow"; "tableCell"] (Some name)
      then Some position else None
  | DiffItemRemove name position =>
      if includes ["tableRow"; "tableCell"] (Some name)
      then Some position else None
  | DiffItemAttribute range =>
      match nodeAfter root (start range) with
      | Some nodeAfter =>
          if includes ["table"; "tableRow"; "tableCell"]
               (nodeAt root nodeAfter ≫= name_of)
          then Some (start range) else None
      | None => None
      end
  end.

(** The node after the position when that is a table, and the table around
    the position otherwise. *)
Definition tableNode (root : Node) (referencePosition : Position) : option Path :=
  match nodeAfter root referencePosition with
  | Some nodeAfter =>
      if bool_decide (nodeAt root nodeAfter ≫= name_of = Some "table")
      then Some nodeAfter
      else findAncestor root referencePosition "table"
  | None => findAncestor root referencePosition "table"
  end.

(** The inner loop: the tables with a [columnWidths] attribute among the
    items of the range on [tableNode]. *)
Definition collectTables (root : Node) (tableNode : Path) (node : Node)
    (affectedTables : gset Path) : gset Path :=
  foldl
    (fun affectedTables item =>
       match nodeAt root item with
       | Some node =>
           if is_element node
              && bool_decide (name_of node = Some "table")
              && hasAttribute_columnWidths node
           then affectedTables ∪ {[ item ]}
           else affectedTables
       | None => affectedTables
       end)
    affectedTables (getItems node tableNode).

(** The outer loop.  [None] stands for the [TypeError] of
    [createRangeOn( null )], raised when a reference position has no table
    around it. *)
Fixpoint getAffectedTables_from (changes : list DiffItem) (root : Node)
    (affectedTables : gset Path) : option (gset Path) :=
  match changes with
  | [] => Some affectedTables
  | change :: changes' =>
      match referencePosition root change with
      | None => getAffectedTables_from changes' root affectedTables
      | Some referencePosition =>
          match tableNode root referencePosition with
          | Some tableNode =>
              match nodeAt root tableNode with
              | Some node =>
                  getAffectedTables_from changes' root
                    (collectTables root tableNode node affectedTables)
              | None => None
              end
          | None => None
          end
      end
  end.

Definition getAffectedTables (changes : list DiffItem) (root : Node)
    : option (gset Path) :=
  getAffectedTables_from changes root ∅.

Record ColumnIndex : Type := {
  leftEdge : option Js.number;
  rightEdge : Js.number
}.

(** [value || 1]: an absent, zero or [NaN] value is falsy. *)
Definition or_one (value : option Js.number) : Js.number :=
  match value with
  | Some n =>
      if Js.isNaN n || bool_decide (n = Js.of_Z 0) then Js.of_Z 1 else n
  | None => Js.of_Z 1
  end.

(** An undefined [cellColumnIndex] turns into [NaN] in the sum. *)
Definition getColumnIndex (root : Node) (cell : Path)
    (columnIndexMap : gmap Path Js.number) : ColumnIndex :=
  let cellColumnIndex := columnIndexMap !! cell in
  let cellWidth := or_one (getAttribute_colspan root cell) in
  {| leftEdge := cellColumnIndex;
     rightEdge :=
       match cellColumnIndex with
       | Some cellColumnIndex =>
           Js.sub (Js.add cellColumnIndex cellWidth) (Js.of_Z 1)
       | None => Js.NaN
       end |}.

Definition toPrecision (value : Js.value) : Js.number :=
  let multiplier := Js.pow10 COLUMN_WIDTH_PRECISION in
  let number := Js.parseFloat value in
  Js.div (Js.round (Js.mul number multiplier)) multiplier.

Definition clamp (number min max : Js.number) : Js.number :=
  if Js.le number min then toPrecision (Js.Num min)
  else if Js.ge number max then toPrecision (Js.Num max)
  else toPrecision (Js.Num number).


Definition sumArray (array : list Js.value) : Js.number :=
  fold_left (fun result item => Js.add result item)
    (List.filter (fun value => negb (Js.isNaN value))
       (map (fun value => Js.parseFloat value) array))
    (Js.of_Z 0).

Definition calculateMissingColumnWidths (columnWidthsAttribute : list string)
    : list Js.number :=
  let columnWidths := map (fun columnWidth => Js.trim columnWidth) columnWidthsAttribute in
  let numberOfUninitializedColumns :=
    length (List.filter (fun columnWidth => columnWidth =? "auto") columnWidths) in
  if (numberOfUninitializedColumns =? 0)%nat then
    map (fun columnWidth => toPrecision (Js.Str columnWidth)) columnWidths
  else
    let totalWidthOfInitializedColumns := sumArray (map Js.Str columnWidths) in
    let widthForUninitializedColumn :=
      Js.max
        (Js.div (Js.sub (Js.of_Z 100) totalWidthOfInitializedColumns)
           (Js.of_Z (Z.of_nat numberOfUninitializedColumns)))
        (Js.Fin COLUMN_MIN_WIDTH_AS_PERCENTAGE) in
    map (fun columnWidth => toPrecision columnWidth)
      (map (fun columnWidth =>
              if columnWidth =? "auto"
              then Js.Num widthForUninitializedColumn
              else Js.Str columnWidth)
         columnWidths).

Definition normalizeColumnWidths (columnWidths : list string) : list Js.number :=
  let columnWidths := calculateMissingColumnWidths columnWidths in
  let totalWidth := sumArray (map Js.Num columnWidths) in
  if Js.strict_eq totalWidth (Js.of_Z 100) then columnWidths
  else
    let columnWidths :=
      map (fun columnWidth =>
             toPrecision
               (Js.Num (Js.div (Js.mul columnWidth (Js.of_Z 100)) totalWidth)))
        columnWidths in
    imap (fun columnIndex columnWidth =>
            let isLastColumn := (columnIndex =? length columnWidths - 1)%nat in
            if negb isLastColumn then columnWidth
            else
              let totalWidth := sumArray (map Js.Num columnWidths) in
              toPrecision
                (Js.Num (Js.sub (Js.add columnWidth (Js.of_Z 100)) totalWidth)))
      columnWidths.

(** The fixed-point value of [k] units of the last digit kept. *)
Definition fixed (k : Z) : Js.number :=
  Js.Fin (Qc_of_Z k / Qc_of_Z (10 ^ Z.of_nat COLUMN_WIDTH_PRECISION))%Qc.



(** The fair share of a placeholder in the words of the specification: the
    width that the known widths leave, divided evenly, and the minimum
    width when that is more. *)
Definition fairShare (rawWidths : list string) : Js.number :=
  let trimmed := map Js.trim rawWidths in
  let initializedTotal :=
    sumArray
      (map Js.Str (List.filter (fun width => negb (width =? "auto")) trimmed)) in
  let remaining := Js.sub (Js.of_Z 100) initializedTotal in
  let placeholderCount :=
    length (List.filter (fun width => width =? "auto") trimmed) in
  Js.max (Js.div remaining (Js.of_Z (Z.of_nat placeholderCount)))
    (Js.Fin COLUMN_MIN_WIDTH_AS_PERCENTAGE).


End Utils.

(** ** The editing view and the rendered document

    The view (module engine/view), the mapping of the model to the view and
    of the view to the DOM, and the DOM itself are not among the sources
    either. *)

Module View.

#[local] Unset Elimination Schemes.

(** Modelled from the spec: a node of the view: a text node, an element
    with its name, its classes and the sequence of its children, or a UI
    element, which is an element that has no children in the view. *)
Inductive Node : Type :=
| Text (data : string)
| Element (name : string) (classes : list string) (children : list Node)
| UIElement (name : string) (classes : list string).

#[local] Set Elimination Schemes.

(** [node.is( '$text' )] and [node.is( 'element', name )]. *)
Definition is_text (node : Node) : bool :=
  match node with Text _ => true | _ => false end.

Definition is_element_named (name : string) (node : Node) : bool :=
  match node with
  | Element name' _ _ | UIElement name' _ => String.eqb name' name
  | Text _ => false
  end.

(** [node.hasClass( className )]; a text node has no such method, and the
    call raises a [TypeError], which [None] stands for. *)
Definition hasClass (className : string) (node : Node) : option bool :=
  match node with
  | Element _ classes _ | UIElement _ classes =>
      Some (existsb (String.eqb className) classes)
  | Text _ => None
  end.

(** [[ ...node.getChildren() ]]; a text node has no such method. *)
Definition getChildren (node : Node) : option (list Node) :=
  match node with
  | Element _ _ children => Some children
  | UIElement _ _ => Some []
  | Text _ => None
  end.

End View.

Module Dom.

(** Modelled from the spec: the properties of a computed style that the
    utilities read. *)
Record CSSStyleDeclaration : Type := {
  width : string;
  paddingLeft : string;
  paddingRight : string;
  borderWidth : string
}.

(** Modelled from the spec: an element of the rendered document, known by
    the style that is computed for it. *)
Record Element : Type := { computedStyle : CSSStyleDeclaration }.

(** [global.window.getComputedStyle( domElement )]: a [TypeError] when the
    argument is undefined. *)
Definition getComputedStyle (domElement : option Element)
    : option CSSStyleDeclaration :=
  computedStyle <$> domElement.

End Dom.

(** Modelled from the spec: what the utilities use of the editor: the
    mapper from model elements to view elements and the converter from view
    elements to DOM elements; either gives undefined for an element that it
    does not know. *)
Record Editor : Type := {
  toViewElement : Model.Path → option View.Node;
  mapViewToDom : View.Node → option Dom.Element
}.

Module JsArray.

(** [array.find( predicate )] for a predicate that may raise: the first
    element that satisfies it, undefined when there is none. *)
Fixpoint find {A : Type} (predicate : A → option bool) (array : list A)
    : option (option A) :=
  match array with
  | [] => Some None
  | element :: array' =>
      match predicate element with
      | Some true => Some (Some element)
      | Some false => find predicate array'
      | None => None
      end
  end.

End JsArray.

Section Rendering.

Local Open Scope string_scope.

(** Another constant of [./constants]: the minimum width of a column, in
    pixels. *)
Variable COLUMN_MIN_WIDTH_IN_PIXELS : Qc.

(** [None] stands for a [TypeError]: the table has no view element, or its
    view element has no table among its children. *)
Definition getChildrenViewElement (modelTable : Model.Path) (elementName : string)
    (editor : Editor) : option (option View.Node) :=
  viewFigure ← toViewElement editor modelTable;
  figureChildren ← View.getChildren viewFigure;
  viewTable ←
    JsArray.find
      (fun viewChild => Some (View.is_element_named "table" viewChild))
      figureChildren;
  viewTable ← viewTable;
  tableChildren ← View.getChildren viewTable;
  JsArray.find
    (fun viewChild => Some (View.is_element_named elementName viewChild))
    tableChildren.

Definition getElementWidthInPixels (domElement : option Dom.Element)
    : option Js.number :=
  style ← Dom.getComputedStyle domElement;
  Some (Js.parseFloat_string (Dom.width style)).

(** [a || b] evaluates [b] only when [a] is undefined; the converter maps
    undefined to undefined. *)
Definition getTableWidthInPixels (table : Model.Path) (editor : Editor)
    : option Js.number :=
  tbody ← getChildrenViewElement table "tbody" editor;
  referenceElement ←
    match tbody with
    | Some _ => Some tbody
    | None => getChildrenViewElement table "thead" editor
    end;
  let domReferenceElement := referenceElement ≫= mapViewToDom editor in
  getElementWidthInPixels domReferenceElement.


(** The view writer changes the view in place: the function returns the
    cell as the call leaves it.  A cell is an element that takes
    children. *)
Definition insertColumnResizerElement (viewCell : View.Node) : option View.Node :=
  match viewCell with
  | View.Element name classes children =>
      viewTableColumnResizerElement ←
        JsArray.find
          (fun viewElement => View.hasClass "ck-table-column-resizer" viewElement)
          children;
      match viewTableColumnResizerElement with
      | Some _ => Some viewCell
      | None =>
          Some
            (View.Element name classes
               (children
                ++ [View.UIElement "div" ["ck-table-column-resizer"]])%list)
      end
  | _ => None
  end.

Definition getDomCellOuterWidth (domCell : Dom.Element) : Js.number :=
  let styles := Dom.computedStyle domCell in
  Js.add
    (Js.add
       (Js.add (Js.parseFloat_string (Dom.width styles))
          (Js.parseFloat_string (Dom.paddingLeft styles)))
       (Js.parseFloat_string (Dom.paddingRight styles)))
    (Js.parseFloat_string (Dom.borderWidth styles)).

End Rendering.

(** The first child of that name among [children], in the words of the
    specification. *)
Definition first_element_named (name : string) (children : list View.Node)
    (node : View.Node) : Prop :=
  ∃ before after,
    children = (before ++ node :: after)%list
    ∧ Forall (fun child => View.is_element_named name child = false) before
    ∧ View.is_element_named name node = true.

(** The number of resizer elements among the children of a cell. *)
Definition resizers (children : list View.Node) : nat :=
  length
    (List.filter
       (fun child =>
          bool_decide
            (View.hasClass "ck-table-column-resizer" child = Some true))
       children).

Section RenderingExample.

Local Open Scope string_scope.

(** An example: the figure of a table that has a head and a body, and an
    editor that knows it as the view of the table at [[0]] and renders its
    body 600 pixels wide. *)
Definition tableFigure : View.Node :=
  View.Element "figure" ["table"]
    [ View.Element "table" []
        [ View.Element "thead" [] [];
          View.Element "tbody" [] [] ] ].

Definition renderedBody : Dom.Element :=
  {| Dom.computedStyle :=
       {| Dom.width := "600px";
          Dom.paddingLeft := "0px";
          Dom.paddingRight := "0px";
          Dom.borderWidth := "1px" |} |}.

Definition renderingEditor : Editor :=
  {| toViewElement :=
       fun modelElement =>
         if bool_decide (modelElement = [0%nat]) then Some tableFigure else None;
     mapViewToDom :=
       fun viewElement =>
         if View.is_element_named "tbody" viewElement
         then Some renderedBody else None |}.

End RenderingExample.

(** ** Numbers: arithmetic facts *)

Section NumberFacts.

Local Open Scope Qc_scope.

Lemma Qfloor_between (x : Q) (z : Z) :
  (inject_Z z <= x)%Q → (x < inject_Z (z + 1))%Q → Qfloor x = z.
Proof.
  intros Hle Hlt.
  pose proof (Qfloor_le x) as Hf1.
  pose proof (Qlt_floor x) as Hf2.
  assert (Qfloor x < z + 1)%Z.
  { rewrite Zlt_Qlt. eapply Qle_lt_trans; eauto. }
  assert (z < Qfloor x + 1)%Z.
  { rewrite Zlt_Qlt. eapply Qle_lt_trans; eauto. }
  lia.
Qed.

Lemma Qc_of_Z_pow10_pos (n : nat) : 0 < Qc_of_Z (10 ^ Z.of_nat n).
Proof.
  rewrite <- Z2Qc_inj_0. apply (proj1 (Z2Qc_inj_lt _ _)).
  apply Z.pow_pos_nonneg; lia.
Qed.

Lemma Qc_of_Z_pow10_neq_0 (n : nat) : Qc_of_Z (10 ^ Z.of_nat n) ≠ 0.
Proof.
  intros H. pose proof (Qc_of_Z_pow10_pos n) as Hp. rewrite H in Hp.
  by apply Qclt_not_eq in Hp.
Qed.

Lemma mul_Fin (a b : Qc) : Js.mul (Js.Fin a) (Js.Fin b) = Js.Fin (a * b).
Proof. reflexivity. Qed.

Lemma add_Fin (a b : Qc) : Js.add (Js.Fin a) (Js.Fin b) = Js.Fin (a + b).
Proof. reflexivity. Qed.

Lemma sub_Fin (a b : Qc) : Js.sub (Js.Fin a) (Js.Fin b) = Js.Fin (a - b).
Proof. reflexivity. Qed.

Lemma div_Fin (a b : Qc) : b ≠ 0 → Js.div (Js.Fin a) (Js.Fin b) = Js.Fin (a / b).
Proof. intros H. unfold Js.div. by rewrite decide_False. Qed.

Lemma round_Fin (q : Qc) :
  Js.round (Js.Fin q) = Js.of_Z (Qfloor (q + Q2Qc (1 # 2))%Qc).
Proof. reflexivity. Qed.

Lemma signed_inf_pos (q : Qc) : 0 < q → Js.signed_inf q = Js.PosInf.
Proof. intros H. unfold Js.signed_inf. by rewrite (proj1 (Qcgt_alt _ _) H). Qed.

Lemma div_PosInf_Fin (b : Qc) : 0 < b → Js.div Js.PosInf (Js.Fin b) = Js.PosInf.
Proof.
  intros H. unfold Js.div. rewrite decide_False; [done|].
  by apply Qcle_not_lt, Qclt_le_weak.
Qed.

Lemma div_NegInf_Fin (b : Qc) : 0 < b → Js.div Js.NegInf (Js.Fin b) = Js.NegInf.
Proof.
  intros H. unfold Js.div. rewrite decide_False; [done|].
  by apply Qcle_not_lt, Qclt_le_weak.
Qed.

End NumberFacts.

(** ** Decimal digits *)

Lemma digit_cases (d : Z) :
  0 ≤ d < 10 →
  d = 0 ∨ d = 1 ∨ d = 2 ∨ d = 3 ∨ d = 4 ∨ d = 5 ∨ d = 6 ∨ d = 7 ∨ d = 8 ∨ d = 9.
Proof. lia. Qed.

(** One goal for each of the ten digits. *)
Ltac each_digit H :=
  match type of H with
  | (0 ≤ ?d < 10)%Z =>
      destruct (digit_cases d H)
        as [->|[->|[->|[->|[->|[->|[->|[->|[->| ->]]]]]]]]]
  end.

Section DigitFacts.

Lemma to_digits_range (w : nat) (n : Z) :
  Forall (fun d => 0 ≤ d < 10) (Js.to_digits w n).
Proof.
  revert n. induction w as [|w IH]; intros n; cbn [Js.to_digits]; [done|].
  apply Forall_app. split; [apply IH|].
  constructor; [|done]. apply Z.mod_pos_bound. lia.
Qed.

Lemma length_to_digits (w : nat) (n : Z) : length (Js.to_digits w n) = w.
Proof.
  revert n. induction w as [|w IH]; intros n; cbn [Js.to_digits]; [done|].
  rewrite length_app, IH. cbn [length]. lia.
Qed.

Lemma digit_value_digit_char (d : Z) :
  0 ≤ d < 10 → Js.digit_value (Js.digit_char d) = Some d.
Proof.
  intros Hd. each_digit Hd; reflexivity.
Qed.

Lemma is_whitespace_digit_char (d : Z) :
  0 ≤ d < 10 → Js.is_whitespace (Js.digit_char d) = false.
Proof.
  intros Hd. each_digit Hd; reflexivity.
Qed.

(** Reading back the digits that were printed, up to what follows them. *)
Lemma read_digits_string_of_digits (ds : list Z) (rest : string) :
  Forall (fun d => 0 ≤ d < 10) ds →
  Js.read_digits rest = ([], rest) →
  Js.read_digits (Js.string_of_digits ds ++ rest)%string = (ds, rest).
Proof.
  intros Hds Hrest. induction Hds as [|d ds Hd _ IH]; [done|].
  change (Js.read_digits
            (String (Js.digit_char d) (Js.string_of_digits ds ++ rest)%string)
          = (d :: ds, rest)).
  cbn [Js.read_digits]. by rewrite digit_value_digit_char, IH.
Qed.

Lemma digits_value_snoc (ds : list Z) (d : Z) :
  Js.digits_value (ds ++ [d]) = 10 * Js.digits_value ds + d.
Proof. unfold Js.digits_value. by rewrite fold_left_app. Qed.

Lemma digits_value_to_digits (w : nat) (n : Z) :
  Js.digits_value (Js.to_digits w n) = n mod 10 ^ Z.of_nat w.
Proof.
  revert n. induction w as [|w IH]; intros n; cbn [Js.to_digits].
  - by rewrite Z.mod_1_r.
  - rewrite digits_value_snoc, IH, Nat2Z.inj_succ, Z.pow_succ_r by lia.
    rewrite Z.rem_mul_r by lia. lia.
Qed.

Lemma to_digits_app (a b : nat) (n : Z) :
  Js.to_digits (a + b) n
  = Js.to_digits a (n / 10 ^ Z.of_nat b) ++ Js.to_digits b n.
Proof.
  revert n. induction b as [|b IH]; intros n.
  - rewrite Nat.add_0_r, Z.div_1_r. cbn [Js.to_digits]. by rewrite app_nil_r.
  - rewrite Nat.add_succ_r. cbn [Js.to_digits]. rewrite IH, app_assoc.
    rewrite Z.div_div, Nat2Z.inj_succ, Z.pow_succ_r by lia. done.
Qed.

Lemma count_digits_fuel_spec (fuel : nat) (n : Z) :
  0 ≤ n < 2 ^ (Z.of_nat fuel + 1) →
  n < 10 ^ Z.of_nat (Js.count_digits_fuel fuel n).
Proof.
  revert n. induction fuel as [|fuel IH]; intros n Hn; cbn [Js.count_digits_fuel].
  - change (2 ^ (Z.of_nat 0 + 1)) with 2 in Hn. change (10 ^ Z.of_nat 1) with 10.
    lia.
  - destruct (Z.ltb_spec n 10) as [Hlt|Hge]; [done|].
    rewrite Nat2Z.inj_succ, Z.pow_succ_r by lia.
    assert (n / 10 < 10 ^ Z.of_nat (Js.count_digits_fuel fuel (n / 10))) as H.
    { apply IH. split; [apply Z.div_pos; lia|].
      apply Z.div_lt_upper_bound; [lia|].
      rewrite Nat2Z.inj_succ, <- Z.add_1_r, Z.pow_add_r in Hn by lia.
      change (2 ^ 1) with 2 in Hn. lia. }
    pose proof (Z.mul_div_le n 10). pose proof (Z.mod_pos_bound n 10).
    pose proof (Z.div_mod n 10). lia.
Qed.

Lemma count_digits_spec (n : Z) :
  0 ≤ n → n < 10 ^ Z.of_nat (Js.count_digits n).
Proof.
  intros Hn. apply count_digits_fuel_spec. split; [done|].
  rewrite Z2Nat.id by apply Z.log2_nonneg.
  destruct (Z.eq_dec n 0) as [->|Hn0]; [done|].
  rewrite Z.add_1_r. apply Z.log2_spec. lia.
Qed.

Lemma count_digits_pos (n : Z) : (1 ≤ Js.count_digits n)%nat.
Proof.
  unfold Js.count_digits. destruct (Z.to_nat _); cbn [Js.count_digits_fuel].
  - done.
  - destruct (n <? 10); lia.
Qed.

(** The digits of [n] spell [n]. *)
Lemma digits_value_digits_of (n : Z) :
  0 ≤ n → Js.digits_value (Js.digits_of n) = n.
Proof.
  intros Hn. unfold Js.digits_of. rewrite digits_value_to_digits.
  apply Z.mod_small. split; [done|]. by apply count_digits_spec.
Qed.

Lemma trailing_zeros_divide (fuel : nat) (n : Z) :
  (10 ^ Z.of_nat (Js.trailing_zeros fuel n) | n).
Proof.
  revert n. induction fuel as [|fuel IH]; intros n; cbn [Js.trailing_zeros].
  - apply Z.divide_1_l.
  - destruct (Z.eqb_spec (n mod 10) 0) as [H0|_]; [|apply Z.divide_1_l].
    rewrite Nat2Z.inj_succ, Z.pow_succ_r by lia.
    apply Z.mod_divide in H0 as [h ->]; [|lia].
    rewrite Z.div_mul by lia. rewrite (Z.mul_comm h).
    by apply Z.mul_divide_mono_l.
Qed.

Lemma trailing_zeros_le (fuel : nat) (n : Z) :
  (Js.trailing_zeros fuel n ≤ fuel)%nat.
Proof.
  revert n. induction fuel as [|fuel IH]; intros n; cbn [Js.trailing_zeros].
  - done.
  - destruct (_ =? _); [|lia]. pose proof (IH (n / 10)). lia.
Qed.

End DigitFacts.

(** ** Printing and parsing numbers *)

Section PrintParse.

Local Open Scope Qc_scope.

Lemma append_nil_r (s : string) : (s ++ "")%string = s.
Proof.
  induction s as [|c s IH]; [done|].
  change (String c (s ++ "")%string = String c s). by rewrite IH.
Qed.

Lemma string_of_digits_cons (d : Z) (ds : list Z) :
  Js.string_of_digits (d :: ds) = String (Js.digit_char d) (Js.string_of_digits ds).
Proof. reflexivity. Qed.

Lemma prefix_Infinity_digit (d : Z) (rest : string) :
  (0 ≤ d < 10)%Z → String.prefix "Infinity" (String (Js.digit_char d) rest) = false.
Proof.
  intros Hd. each_digit Hd; reflexivity.
Qed.

Lemma read_digits_fraction_string (fp : list Z) (rest : string) :
  Js.read_digits rest = ([], rest) →
  Js.read_digits (Js.fraction_string fp ++ rest)%string
  = ([], (Js.fraction_string fp ++ rest)%string).
Proof. intros Hrest. by destruct fp. Qed.

Lemma read_digits_exponent_string (e : Z) :
  Js.read_digits (Js.exponent_string e) = ([], Js.exponent_string e).
Proof. reflexivity. Qed.

Lemma digits_of_cons (n : Z) :
  ∃ d ds, Js.digits_of n = d :: ds ∧ (0 ≤ d < 10)%Z.
Proof.
  pose proof (to_digits_range (Js.count_digits n) n) as Hrange.
  pose proof (length_to_digits (Js.count_digits n) n) as Hlen.
  pose proof (count_digits_pos n). unfold Js.digits_of.
  destruct (Js.to_digits _ n) as [|d ds]; cbn [length] in Hlen; [lia|].
  exists d, ds. split; [done|]. by apply Forall_cons_1 in Hrange as [? _].
Qed.

Lemma read_exponent_exponent_string (e : Z) :
  Js.read_exponent (Js.exponent_string e) = e.
Proof.
  unfold Js.exponent_string, Js.read_exponent.
  change ("e" ++ ?s)%string with (String "e" s). cbv iota beta.
  change (("e" =? "e")%char || ("e" =? "E")%char) with true. cbv iota.
  assert (Js.read_digits (Js.string_of_digits (Js.digits_of (Z.abs e)))
          = (Js.digits_of (Z.abs e), ""%string)) as Hread.
  { rewrite <- (append_nil_r (Js.string_of_digits _)).
    apply read_digits_string_of_digits; [apply to_digits_range | done]. }
  pose proof (digits_value_digits_of (Z.abs e) (Z.abs_nonneg e)) as Hvalue.
  destruct (digits_of_cons (Z.abs e)) as (d & ds & Hcons & _).
  destruct (Z.leb_spec 0 e) as [Hpos|Hneg].
  - change ("+" ++ ?s)%string with (String "+" s). cbn [Js.read_sign].
    rewrite Hread, Hcons. rewrite <- Hcons, Hvalue. lia.
  - change ("-" ++ ?s)%string with (String "-" s). cbn [Js.read_sign].
    rewrite Hread, Hcons. rewrite <- Hcons, Hvalue. lia.
Qed.

(** Parsing a printed literal: integer digits, fraction, exponent. *)
Lemma read_unsigned_exponent (ip fp : list Z) (e : Z) :
  ip ≠ [] →
  Forall (fun d => 0 ≤ d < 10)%Z ip →
  Forall (fun d => 0 ≤ d < 10)%Z fp →
  Js.read_unsigned
    (Js.string_of_digits ip ++ Js.fraction_string fp ++ Js.exponent_string e)%string
  = Js.Fin (Qc_of_Z (Js.digits_value (ip ++ fp))
            * Js.pow10q (e - Z.of_nat (length fp))).
Proof.
  intros Hne Hip Hfp. unfold Js.read_unsigned.
  destruct ip as [|d ip]; [done|].
  rewrite string_of_digits_cons at 1.
  change (String ?c ?s ++ ?r)%string with (String c (s ++ r)%string) at 1.
  rewrite prefix_Infinity_digit by by apply Forall_cons_1 in Hip as [? _].
  change (String (Js.digit_char d) (Js.string_of_digits ip ++ ?r)%string)
    with (Js.string_of_digits (d :: ip) ++ r)%string.
  rewrite read_digits_string_of_digits; [|done|].
  2:{ apply read_digits_fraction_string, read_digits_exponent_string. }
  destruct fp as [|f fp].
  - cbn [Js.fraction_string]. change ("" ++ ?s)%string with s.
    unfold Js.exponent_string at 1.
    change ("e" ++ ?s)%string with (String "e" s) at 1. cbv iota beta.
    fold (Js.exponent_string e). by rewrite read_exponent_exponent_string.
  - unfold Js.fraction_string.
    change (("." ++ ?s) ++ ?r)%string with (String "." (s ++ r)%string).
    cbv iota beta.
    rewrite read_digits_string_of_digits;
      [|done|apply read_digits_exponent_string].
    by rewrite read_exponent_exponent_string.
Qed.

Lemma read_unsigned_plain (ip fp : list Z) :
  ip ≠ [] →
  Forall (fun d => 0 ≤ d < 10)%Z ip →
  Forall (fun d => 0 ≤ d < 10)%Z fp →
  Js.read_unsigned (Js.string_of_digits ip ++ Js.fraction_string fp)%string
  = Js.Fin (Qc_of_Z (Js.digits_value (ip ++ fp))
            * Js.pow10q (0 - Z.of_nat (length fp))).
Proof.
  intros Hne Hip Hfp. unfold Js.read_unsigned.
  destruct ip as [|d ip]; [done|].
  rewrite string_of_digits_cons at 1.
  change (String ?c ?s ++ ?r)%string with (String c (s ++ r)%string) at 1.
  rewrite prefix_Infinity_digit by by apply Forall_cons_1 in Hip as [? _].
  change (String (Js.digit_char d) (Js.string_of_digits ip ++ ?r)%string)
    with (Js.string_of_digits (d :: ip) ++ r)%string.
  rewrite read_digits_string_of_digits; [|done|by destruct fp].
  destruct fp as [|f fp].
  - done.
  - unfold Js.fraction_string.
    change ("." ++ ?s)%string with (String "." s). cbv iota beta.
    rewrite <- (append_nil_r (Js.string_of_digits (f :: fp))).
    by rewrite read_digits_string_of_digits.
Qed.

(** *** The decimal expansion *)

Lemma decimal_search_sound (fuel : nat) (num den : Z) (d : nat) (m : Z) (d' : nat) :
  (0 < den)%Z →
  Js.decimal_search fuel num den d = Some (m, d') →
  (m * den * 10 ^ Z.of_nat d = num * 10 ^ Z.of_nat d')%Z.
Proof.
  revert num den d. induction fuel as [|fuel IH]; intros num den d Hden;
    cbn [Js.decimal_search]; destruct (Z.eqb_spec den 1) as [->|Hne];
    try (intros [= <- <-]; lia); try done.
  assert (∀ c num', (1 < c)%Z → (den mod c = 0)%Z →
    Js.decimal_search fuel num' (den / c) (S d) = Some (m, d') →
    (m * den * 10 ^ Z.of_nat d * 10 = num' * c * 10 ^ Z.of_nat d')%Z) as Hstep.
  { intros c num' Hc Hmod Hsearch.
    apply Z.mod_divide in Hmod as [h ->]; [|lia].
    rewrite Z.div_mul in Hsearch by lia.
    apply IH in Hsearch; [|nia].
    rewrite Nat2Z.inj_succ, Z.pow_succ_r in Hsearch by lia. nia. }
  destruct (Z.eqb_spec (den mod 10) 0) as [H10|_].
  { intros H. apply (Hstep 10%Z num) in H; lia. }
  destruct (Z.eqb_spec (den mod 2) 0) as [H2|_].
  { intros H. apply (Hstep 2%Z (num * 5)%Z) in H; lia. }
  destruct (Z.eqb_spec (den mod 5) 0) as [H5|_]; [|done].
  intros H. apply (Hstep 5%Z (num * 2)%Z) in H; lia.
Qed.

Lemma gcd_2 (den : Z) : (den mod 2 ≠ 0)%Z → Z.gcd den 2 = 1%Z.
Proof.
  intros Hmod. pose proof (Z.gcd_nonneg den 2%Z) as Hnn.
  pose proof (Z.gcd_divide_l den 2%Z) as Hl.
  pose proof (Z.gcd_divide_r den 2%Z) as Hr.
  pose proof (Z.divide_pos_le _ 2%Z eq_refl Hr) as Hle.
  destruct (Z.eq_dec (Z.gcd den 2) 0%Z) as [H0|H0].
  { rewrite H0 in Hr. destruct Hr as [? ?]. lia. }
  destruct (Z.eq_dec (Z.gcd den 2) 2%Z) as [H2|H2]; [|lia].
  rewrite H2 in Hl. apply Z.mod_divide in Hl; lia.
Qed.

Lemma gcd_5 (den : Z) : (den mod 5 ≠ 0)%Z → Z.gcd den 5 = 1%Z.
Proof.
  intros Hmod. pose proof (Z.gcd_nonneg den 5%Z) as Hnn.
  pose proof (Z.gcd_divide_l den 5%Z) as Hl.
  pose proof (Z.gcd_divide_r den 5%Z) as Hr.
  pose proof (Z.divide_pos_le _ 5%Z eq_refl Hr) as Hle.
  destruct (Z.eq_dec (Z.gcd den 5) 5%Z) as [H5|H5].
  { rewrite H5 in Hl. apply Z.mod_divide in Hl; lia. }
  destruct Hr as [h Hh]. revert Hh Hnn Hle H5.
  generalize (Z.gcd den 5). intros g Hh Hnn Hle H5.
  assert (g = 0 ∨ g = 1 ∨ g = 2 ∨ g = 3 ∨ g = 4)%Z as Hg by lia.
  destruct Hg as [->|[->|[->|[->| ->]]]]; lia.
Qed.

(** A denominator without a factor two or five that divides a power of
    ten is one. *)
Lemma divide_pow10_coprime (den : Z) (P : nat) :
  (0 < den)%Z → (den mod 2 ≠ 0)%Z → (den mod 5 ≠ 0)%Z →
  (den | 10 ^ Z.of_nat P)%Z → den = 1%Z.
Proof.
  intros Hden H2%gcd_2 H5%gcd_5. induction P as [|P IH].
  - intros Hdiv. apply Z.divide_pos_le in Hdiv; lia.
  - rewrite Nat2Z.inj_succ, Z.pow_succ_r by lia. intros Hdiv. apply IH.
    change 10%Z with (2 * 5)%Z in Hdiv at 1. rewrite <- Z.mul_assoc in Hdiv.
    apply Z.gauss in Hdiv; [|done]. by apply Z.gauss in Hdiv.
Qed.

Lemma decimal_search_complete (fuel : nat) (num den : Z) (d P : nat) :
  (0 < den < 2 ^ (Z.of_nat fuel + 1))%Z →
  (den | 10 ^ Z.of_nat P)%Z →
  is_Some (Js.decimal_search fuel num den d).
Proof.
  revert num den d. induction fuel as [|fuel IH]; intros num den d Hden Hdiv;
    cbn [Js.decimal_search]; destruct (Z.eqb_spec den 1) as [->|Hne];
    try by eexists.
  { change (2 ^ (Z.of_nat 0 + 1))%Z with 2%Z in Hden. lia. }
  assert (∀ c num', (2 ≤ c)%Z → (den mod c = 0)%Z →
    is_Some (Js.decimal_search fuel num' (den / c) (S d))) as Hstep.
  { intros c num' Hc Hmod.
    apply Z.mod_divide in Hmod as [h ->]; [|lia].
    rewrite Z.div_mul by lia. apply IH.
    - rewrite Nat2Z.inj_succ, <- Z.add_1_r, Z.pow_add_r in Hden by lia.
      change (2 ^ 1)%Z with 2%Z in Hden. nia.
    - apply Z.divide_trans with (h * c)%Z; [|done]. exists c. lia. }
  destruct (Z.eqb_spec (den mod 10) 0) as [H10|_]; [by apply Hstep|].
  destruct (Z.eqb_spec (den mod 2) 0) as [H2|H2]; [by apply Hstep|].
  destruct (Z.eqb_spec (den mod 5) 0) as [H5|H5]; [by apply Hstep|].
  destruct Hne. apply (divide_pow10_coprime den P); [lia|done..].
Qed.

Lemma Qc_mult_of_Z_eq (q : Qc) (a b : Z) :
  q * Qc_of_Z a = Qc_of_Z b ↔ (Qnum q * a = b * Zpos (Qden q))%Z.
Proof.
  split.
  - intros H. apply (f_equal this) in H. cbn in H.
    assert (q * inject_Z a == inject_Z b)%Q as Heq.
    { rewrite <- H. symmetry. apply Qred_correct. }
    unfold Qeq in Heq. cbn in Heq. lia.
  - intros H. apply Qc_is_canon. cbn. rewrite Qred_correct.
    unfold Qeq. cbn. lia.
Qed.

(** A rational that a power of ten turns into an integer has a decimal
    expansion, and [decimal_of] finds one. *)
Lemma decimal_of_spec (q : Qc) (P : nat) (k : Z) :
  q * Qc_of_Z (10 ^ Z.of_nat P) = Qc_of_Z k →
  ∃ m d, Js.decimal_of q = (m, d) ∧ q * Qc_of_Z (10 ^ Z.of_nat d) = Qc_of_Z m.
Proof.
  intros Hk%Qc_mult_of_Z_eq. unfold Js.decimal_of. cbv zeta.
  assert (Z.pos (Qden q) | 10 ^ Z.of_nat P)%Z as Hdiv.
  { apply Z.gauss with (Qnum q).
    - exists k. lia.
    - rewrite Z.gcd_comm. apply Qred_iff. apply (canon q). }
  destruct (decimal_search_complete (Z.to_nat (Z.log2 (Z.pos (Qden q))))
              (Qnum q) (Z.pos (Qden q)) 0 P) as [[m d] Hsearch]; [|done|].
  { split; [done|]. rewrite Z2Nat.id by apply Z.log2_nonneg.
    rewrite Z.add_1_r. by apply Z.log2_spec. }
  rewrite Hsearch. exists m, d. split; [done|].
  apply decimal_search_sound in Hsearch; [|done].
  apply Qc_mult_of_Z_eq. change (10 ^ Z.of_nat 0)%Z with 1%Z in Hsearch. lia.
Qed.

(** *** Powers of ten *)

Lemma Qc_of_Z_pow10_neq_0' (n : Z) : (0 ≤ n)%Z → Qc_of_Z (10 ^ n) ≠ 0.
Proof.
  intros Hn. rewrite <- Z2Qc_inj_0. intros H%Z2Qc_inj.
  pose proof (Z.pow_pos_nonneg 10 n). lia.
Qed.

Lemma pow10q_shift (e N : Z) :
  (0 ≤ N)%Z → (0 ≤ e + N)%Z →
  Js.pow10q e * Qc_of_Z (10 ^ N) = Qc_of_Z (10 ^ (e + N)).
Proof.
  intros HN HeN. unfold Js.pow10q. destruct (Z.leb_spec 0 e) as [He|He].
  - by rewrite <- Z2Qc_inj_mul, <- Z.pow_add_r.
  - replace N with (- e + (e + N))%Z at 1 by lia.
    rewrite Z.pow_add_r, Z2Qc_inj_mul by lia.
    field. apply Qc_of_Z_pow10_neq_0'. lia.
Qed.

Lemma Qc_mult_pow10_cancel (a b : Qc) (N : Z) :
  (0 ≤ N)%Z → a * Qc_of_Z (10 ^ N) = b * Qc_of_Z (10 ^ N) → a = b.
Proof.
  intros HN H. apply (f_equal (fun x => x / Qc_of_Z (10 ^ N))) in H.
  revert H. unfold Qcdiv. rewrite <- !Qcmult_assoc.
  rewrite !Qcmult_inv_r by by apply Qc_of_Z_pow10_neq_0'.
  by rewrite !Qcmult_1_r.
Qed.

(** *** Printing, then parsing *)

Lemma unsigned_toString_head (m : Z) (d : nat) :
  ∃ x rest,
    (0 ≤ x < 10)%Z ∧ Js.unsigned_toString m d = String (Js.digit_char x) rest.
Proof.
  unfold Js.unsigned_toString. cbv zeta. destruct (_ && _).
  - destruct (digits_of_cons (m / 10 ^ Z.of_nat d)) as (x & ds & -> & Hx).
    exists x. eexists. split; [done|]. by rewrite string_of_digits_cons.
  - cbn [Js.to_digits app]. rewrite string_of_digits_cons.
    eexists _, _. split; [|done]. apply Z.mod_pos_bound. lia.
Qed.

Lemma read_unsigned_unsigned_toString (m : Z) (d : nat) :
  (0 < m)%Z →
  Js.read_unsigned (Js.unsigned_toString m d)
  = Js.Fin (Qc_of_Z m * Js.pow10q (- Z.of_nat d)).
Proof.
  intros Hm. unfold Js.unsigned_toString. cbv zeta.
  pose proof (count_digits_spec m ltac:(lia)) as Hw.
  destruct (_ && _).
  - destruct (digits_of_cons (m / 10 ^ Z.of_nat d)) as (x & ds & Hcons & _).
    rewrite read_unsigned_plain;
      [|by rewrite Hcons|apply to_digits_range|apply to_digits_range].
    unfold Js.digits_of. rewrite <- to_digits_app, digits_value_to_digits.
    rewrite length_to_digits, Z.sub_0_l. do 3 f_equal.
    apply Z.mod_small. split; [lia|].
    assert (0 < 10 ^ Z.of_nat d)%Z as Hpow by (apply Z.pow_pos_nonneg; lia).
    pose proof (count_digits_spec (m / 10 ^ Z.of_nat d)
                  ltac:(apply Z.div_pos; lia)) as Hi.
    rewrite Nat2Z.inj_add, Z.pow_add_r by lia.
    pose proof (Z.div_mod m (10 ^ Z.of_nat d) ltac:(lia)).
    pose proof (Z.mod_pos_bound m (10 ^ Z.of_nat d) Hpow). nia.
  - set (w := Js.count_digits m) in *.
    pose proof (trailing_zeros_le w m) as Hzw.
    destruct (trailing_zeros_divide w m) as [s Hs].
    set (z := Js.trailing_zeros w m) in *.
    assert (0 < 10 ^ Z.of_nat z)%Z as Hpow by (apply Z.pow_pos_nonneg; lia).
    assert (m / 10 ^ Z.of_nat z = s)%Z as -> by (rewrite Hs; by apply Z.div_mul, Z.neq_sym, Z.lt_neq).
    assert (z < w)%nat as Hlt.
    { destruct (Nat.eq_dec z w) as [Heq|]; [exfalso|lia].
      rewrite Heq in Hs. destruct (Z.le_gt_cases s 0); nia. }
    assert (0 < s < 10 ^ Z.of_nat (w - z))%Z as Hsk.
    { split; [nia|]. apply Z.mul_lt_mono_pos_r with (10 ^ Z.of_nat z)%Z; [done|].
      rewrite <- Z.pow_add_r, <- Nat2Z.inj_add by lia.
      replace (w - z + z)%nat with w by lia. lia. }
    rewrite read_unsigned_exponent;
      [|by cbn [Js.to_digits app]|apply to_digits_range..].
    rewrite <- to_digits_app, digits_value_to_digits, length_to_digits.
    replace (1 + (w - z - 1))%nat with (w - z)%nat by lia.
    rewrite Z.mod_small by lia. f_equal.
    apply (Qc_mult_pow10_cancel _ _ (Z.of_nat d)); [lia|].
    rewrite <- !Qcmult_assoc, !pow10q_shift by lia.
    rewrite <- !Z2Qc_inj_mul. f_equal. rewrite Hs.
    replace (- Z.of_nat d + Z.of_nat d)%Z with 0%Z by lia.
    replace (Z.of_nat w - Z.of_nat d - 1 - Z.of_nat (w - z - 1) + Z.of_nat d)%Z
      with (Z.of_nat z) by lia.
    lia.
Qed.

Lemma read_sign_digit (d : Z) (rest : string) :
  (0 ≤ d < 10)%Z →
  Js.read_sign (String (Js.digit_char d) rest)
  = (false, String (Js.digit_char d) rest).
Proof.
  intros Hd. each_digit Hd; reflexivity.
Qed.

Lemma trimStart_digit (d : Z) (rest : string) :
  (0 ≤ d < 10)%Z →
  Js.trimStart (String (Js.digit_char d) rest) = String (Js.digit_char d) rest.
Proof.
  intros Hd. cbn [Js.trimStart]. by rewrite is_whitespace_digit_char.
Qed.

Lemma parseFloat_0 : Js.parseFloat_string "0" = Js.Fin 0.
Proof. vm_compute. f_equal; by apply Qc_is_canon. Qed.

Lemma decimal_of_value (a : Qc) (P : nat) (k : Z) :
  0 ≤ a →
  a * Qc_of_Z (10 ^ Z.of_nat P) = Qc_of_Z k →
  ∃ m d,
    Js.decimal_of a = (m, d)
    ∧ (0 ≤ m)%Z
    ∧ Qc_of_Z m * Js.pow10q (- Z.of_nat d) = a.
Proof.
  intros Hnn Hk. destruct (decimal_of_spec a P k Hk) as (m & d & Hdec & Hm).
  exists m, d. split; [done|]. split.
  - apply Z2Qc_inj_le. rewrite Z2Qc_inj_0, <- Hm.
    apply Qcmult_nonneg_nonneg; [done|].
    rewrite <- Z2Qc_inj_0. apply (proj1 (Z2Qc_inj_le _ _)).
    apply Z.pow_nonneg. lia.
  - apply (Qc_mult_pow10_cancel _ _ (Z.of_nat d)); [lia|].
    rewrite <- Qcmult_assoc, pow10q_shift, Hm by lia.
    replace (- Z.of_nat d + Z.of_nat d)%Z with 0%Z by lia.
    change (10 ^ 0)%Z with 1%Z. by rewrite Z2Qc_inj_1, Qcmult_1_r.
Qed.

(** A number with a decimal expansion parses back from what it prints
    to. *)
Lemma parseFloat_toString_decimal (q : Qc) (P : nat) (k : Z) :
  q * Qc_of_Z (10 ^ Z.of_nat P) = Qc_of_Z k →
  Js.parseFloat_string (Js.toString (Js.Fin q)) = Js.Fin q.
Proof.
  intros Hk. unfold Js.toString. destruct (decide (q < 0)) as [Hq|Hq].
  - destruct (decimal_of_value (- q) P (- k)) as (m & d & -> & Hm0 & Hvalue).
    { apply Qclt_le_weak, Qcopp_le_compat in Hq.
      replace (- 0) with 0 in Hq by ring. done. }
    { rewrite Z2Qc_inj_opp, <- Hk. ring. }
    destruct (Z.eqb_spec m 0) as [->|Hne].
    + rewrite parseFloat_0. f_equal.
      rewrite Z2Qc_inj_0, Qcmult_0_l in Hvalue.
      by rewrite <- (Qcopp_involutive q), <- Hvalue.
    + unfold Js.parseFloat_string.
      change ("-" ++ ?s)%string with (String "-" s).
      change (Js.trimStart (String "-" ?s)) with (String "-" s).
      cbn [Js.read_sign].
      rewrite read_unsigned_unsigned_toString by lia. cbn [Js.neg].
      by rewrite Hvalue, Qcopp_involutive.
  - destruct (decimal_of_value q P k) as (m & d & -> & Hm0 & Hvalue);
      [by apply Qcnot_lt_le | done |].
    destruct (Z.eqb_spec m 0) as [->|Hne].
    + rewrite parseFloat_0. f_equal.
      by rewrite Z2Qc_inj_0, Qcmult_0_l in Hvalue.
    + unfold Js.parseFloat_string.
      destruct (unsigned_toString_head m d) as (x & rest & Hx & Hhead).
      change ("" ++ ?s)%string with s. rewrite Hhead.
      rewrite trimStart_digit, read_sign_digit by done. rewrite <- Hhead.
      by rewrite read_unsigned_unsigned_toString, Hvalue by lia.
Qed.

(** *** What a number prints to *)







Lemma trimEnd_no_whitespace (s : string) :
  Js.no_whitespace s = true → Js.trimEnd s = s.
Proof.
  induction s as [|c s IH]; [done|]. cbn [Js.no_whitespace Js.trimEnd].
  intros [Hc Hs]%andb_true_iff. rewrite (IH Hs).
  destruct s; [|done]. by destruct (Js.is_whitespace c).
Qed.



(** No number prints as the placeholder. *)
Lemma toString_neq_auto (x : Js.number) : Js.toString x ≠ "auto"%string.
Proof.
  destruct x as [| | |q]; try done. unfold Js.toString.
  destruct (Js.decimal_of _) as [m d]. destruct (m =? 0)%Z; [done|].
  destruct (unsigned_toString_head m d) as (y & rest & Hy & ->).
  destruct (decide _); [done|]. change ("" ++ ?s)%string with s.
  each_digit Hy; done.
Qed.

End PrintParse.

(** ** Rounding to the configured precision *)

Section PrecisionFacts.

Variable p : nat.

Local Abbreviation multiplier := (Qc_of_Z (10 ^ Z.of_nat p)).

Local Open Scope Qc_scope.

Lemma toPrecision_Fin (q : Qc) :
  toPrecision p (Js.Num (Js.Fin q))
  = fixed p (Qfloor (q * multiplier + Q2Qc (1 # 2))%Qc).
Proof.
  unfold toPrecision, fixed, Js.pow10, Js.parseFloat, Js.of_Z at 1.
  rewrite mul_Fin, round_Fin. unfold Js.of_Z.
  apply div_Fin, Qc_of_Z_pow10_neq_0.
Qed.

Lemma toPrecision_NaN : toPrecision p (Js.Num Js.NaN) = Js.NaN.
Proof. reflexivity. Qed.

Lemma toPrecision_PosInf : toPrecision p (Js.Num Js.PosInf) = Js.PosInf.
Proof.
  unfold toPrecision, Js.pow10, Js.parseFloat, Js.of_Z, Js.mul.
  rewrite signed_inf_pos by apply Qc_of_Z_pow10_pos.
  apply div_PosInf_Fin, Qc_of_Z_pow10_pos.
Qed.

Lemma toPrecision_NegInf : toPrecision p (Js.Num Js.NegInf) = Js.NegInf.
Proof.
  unfold toPrecision, Js.pow10, Js.parseFloat, Js.of_Z, Js.mul.
  rewrite signed_inf_pos by apply Qc_of_Z_pow10_pos.
  apply div_NegInf_Fin, Qc_of_Z_pow10_pos.
Qed.

Lemma toPrecision_Str (s : string) :
  toPrecision p (Js.Str s) = toPrecision p (Js.Num (Js.parseFloat_string s)).
Proof. reflexivity. Qed.

Lemma Qfloor_add_half (z : Z) : Qfloor (Qc_of_Z z + Q2Qc (1 # 2))%Qc = z.
Proof.
  apply Qfloor_between; simpl; rewrite !Qred_correct.
  - rewrite <- (Qplus_0_r (inject_Z z)) at 1.
    apply Qplus_le_r. discriminate.
  - rewrite inject_Z_plus. apply Qplus_lt_r. reflexivity.
Qed.

(** Rounding leaves a fixed-point value alone. *)
Lemma toPrecision_fixed (k : Z) : toPrecision p (Js.Num (fixed p k)) = fixed p k.
Proof.
  unfold fixed at 1. rewrite toPrecision_Fin. f_equal.
  replace (Qc_of_Z k / multiplier * multiplier) with (Qc_of_Z k).
  - apply Qfloor_add_half.
  - field. apply Qc_of_Z_pow10_neq_0.
Qed.

Lemma fixed_of_Z (z : Z) :
  Js.of_Z z = fixed p (z * 10 ^ Z.of_nat p).
Proof.
  unfold Js.of_Z, fixed. f_equal. rewrite Z2Qc_inj_mul.
  field. apply Qc_of_Z_pow10_neq_0.
Qed.




Lemma le_fixed (a b : Z) : Js.le (fixed p a) (fixed p b) = bool_decide (a ≤ b)%Z.
Proof.
  unfold fixed. simpl. apply bool_decide_ext.
  rewrite Z2Qc_inj_le. unfold Qcdiv.
  apply iff_sym, Qcmult_le_mono_pos_r, Qcinv_pos, Qc_of_Z_pow10_pos.
Qed.


End PrecisionFacts.

(** ** Summation *)

Section SumFacts.

Variable p : nat.








End SumFacts.

(** ** The proportional rescale *)

Section NormalizeFacts.

Variable p : nat.
Variable MIN : Qc.

Local Abbreviation multiplier := (Qc_of_Z (10 ^ Z.of_nat p)).







End NormalizeFacts.

(** ** Computing the missing widths *)

Section MissingWidthFacts.

Variable p : nat.
Variable MIN : Qc.

Local Open Scope string_scope.
Local Abbreviation multiplier := (Qc_of_Z (10 ^ Z.of_nat p)).

Lemma parseFloat_auto : Js.parseFloat_string "auto" = Js.NaN.
Proof. reflexivity. Qed.

Lemma filter_length_0 {A : Type} (f : A → bool) (l : list A) :
  length (List.filter f l) = 0%nat → Forall (fun x => f x = false) l.
Proof.
  induction l as [|x l IH]; [done|]. cbn [List.filter].
  destruct (f x) eqn:Hx; [done|]. intros H. constructor; auto.
Qed.

(** The placeholders do not count in the sum of the known widths: they
    parse to [NaN]. *)
Lemma sumArray_without_auto (l : list string) :
  sumArray (map Js.Str l)
  = sumArray (map Js.Str (List.filter (fun width => negb (width =? "auto")) l)).
Proof.
  unfold sumArray. f_equal. induction l as [|s l IH]; [done|].
  cbn [map List.filter]. destruct (s =? "auto") eqn:Hs; cbn [negb].
  - apply String.eqb_eq in Hs as ->. exact IH.
  - cbn [map List.filter]. destruct (negb _); by rewrite IH.
Qed.



(** Every entry is rounded; a placeholder gets the fair share first. *)
Lemma calculateMissingColumnWidths_entries (columnWidths : list string) :
  calculateMissingColumnWidths p MIN columnWidths
  = map (fun columnWidth =>
           toPrecision p
             (if columnWidth =? "auto"
              then Js.Num (fairShare MIN columnWidths)
              else Js.Str columnWidth))
      (map Js.trim columnWidths).
Proof.
  unfold calculateMissingColumnWidths. cbv zeta.
  destruct (Nat.eqb_spec
    (length (List.filter (fun columnWidth => columnWidth =? "auto")
               (map (fun columnWidth => Js.trim columnWidth) columnWidths))) 0)
    as [H0|_].
  - apply filter_length_0 in H0. rewrite List.Forall_forall in H0.
    apply map_ext_in. intros s Hs. by rewrite (H0 s Hs).
  - rewrite map_map. apply map_ext. intros s.
    unfold fairShare. cbv zeta. by rewrite <- sumArray_without_auto.
Qed.







End MissingWidthFacts.

(** ** Properties of the utilities *)

Section ClampAndSum.

Variable p : nat.

Lemma le_antisym (x y : Js.number) :
  Js.le x y = true → Js.le y x = true → x = y.
Proof.
  destruct x as [| | |a], y as [| | |b]; try done. unfold Js.le.
  intros Hab%bool_decide_eq_true Hba%bool_decide_eq_true.
  f_equal. by apply Qcle_antisym.
Qed.

Lemma le_trans (x y z : Js.number) :
  Js.le x y = true → Js.le y z = true → Js.le x z = true.
Proof.
  destruct x as [| | |a], y as [| | |b], z as [| | |c]; try done. unfold Js.le.
  intros Hab%bool_decide_eq_true Hbc%bool_decide_eq_true.
  apply bool_decide_eq_true. by etrans.
Qed.

Lemma toPrecision_of_Z (z : Z) : toPrecision p (Js.Num (Js.of_Z z)) = Js.of_Z z.
Proof. rewrite (fixed_of_Z p). apply toPrecision_fixed. Qed.

(** C8: [clamp] returns the lower bound when the number is at most the
    lower bound, the upper bound when the number is at least the upper
    bound (the bounds being in order, or the first test having failed), and
    the number itself otherwise; whichever branch is taken, the value
    returned has gone through [toPrecision].  In particular
    [clamp(5, 10, 90)] is [10], [clamp(95, 10, 90)] is [90] and
    [clamp(50, 10, 90)] is [50]. *)
Theorem clamp_spec (number min max : Js.number) :
  (Js.le number min = true →
   clamp p number min max = toPrecision p (Js.Num min))
  ∧ (Js.ge number max = true →
     Js.le min max = true ∨ Js.le number min = false →
     clamp p number min max = toPrecision p (Js.Num max))
  ∧ (Js.le number min = false → Js.ge number max = false →
     clamp p number min max = toPrecision p (Js.Num number))
  ∧ clamp p (Js.of_Z 5) (Js.of_Z 10) (Js.of_Z 90) = Js.of_Z 10
  ∧ clamp p (Js.of_Z 95) (Js.of_Z 10) (Js.of_Z 90) = Js.of_Z 90
  ∧ clamp p (Js.of_Z 50) (Js.of_Z 10) (Js.of_Z 90) = Js.of_Z 50.
Proof.
  unfold clamp. repeat split.
  - by intros ->.
  - intros Hmax Hor. destruct (Js.le number min) eqn:Hmin.
    + destruct Hor as [Hbounds|?]; [|done]. unfold Js.ge in Hmax.
      assert (min = max) as ->; [|done].
      apply le_antisym; [done|]. by eapply le_trans.
    + by rewrite Hmax.
  - by intros -> ->.
  - replace (Js.le (Js.of_Z 5) (Js.of_Z 10)) with true by by vm_compute.
    apply toPrecision_of_Z.
  - replace (Js.le (Js.of_Z 95) (Js.of_Z 10)) with false by by vm_compute.
    replace (Js.ge (Js.of_Z 95) (Js.of_Z 90)) with true by by vm_compute.
    apply toPrecision_of_Z.
  - replace (Js.le (Js.of_Z 50) (Js.of_Z 10)) with false by by vm_compute.
    replace (Js.ge (Js.of_Z 50) (Js.of_Z 90)) with false by by vm_compute.
    apply toPrecision_of_Z.
Qed.


End ClampAndSum.

Section NormalizeProperties.

Variable p : nat.
Variable MIN : Qc.

Local Open Scope string_scope.


Lemma sub_of_Z (a b : Z) : Js.sub (Js.of_Z a) (Js.of_Z b) = Js.of_Z (a - b).
Proof. unfold Js.of_Z. by rewrite sub_Fin, Z2Qc_inj_sub. Qed.

Lemma add_of_Z (a b : Z) : Js.add (Js.of_Z a) (Js.of_Z b) = Js.of_Z (a + b).
Proof. unfold Js.of_Z. by rewrite add_Fin, Z2Qc_inj_add. Qed.




(** Rounding is monotone. *)
Lemma round_mono (a b : Qc) :
  (a ≤ b)%Qc →
  Qfloor (a * Qc_of_Z (10 ^ Z.of_nat p) + Q2Qc (1 # 2))%Qc
  ≤ Qfloor (b * Qc_of_Z (10 ^ Z.of_nat p) + Q2Qc (1 # 2))%Qc.
Proof.
  intros Hab. apply Qfloor_resp_le.
  change (a * Qc_of_Z (10 ^ Z.of_nat p) + Q2Qc (1 # 2)
          ≤ b * Qc_of_Z (10 ^ Z.of_nat p) + Q2Qc (1 # 2))%Qc.
  apply Qcplus_le_mono_r, Qcmult_le_mono_nonneg_r; [|done].
  apply Qclt_le_weak, Qc_of_Z_pow10_pos.
Qed.






(** *** The second pass *)

Lemma parseFloat_toString_fixed (k : Z) :
  Js.parseFloat_string (Js.toString (fixed p k)) = fixed p k.
Proof.
  unfold fixed. apply (parseFloat_toString_decimal _ p k).
  field. apply Qc_of_Z_pow10_neq_0.
Qed.











(** C10: [normalizeColumnWidths] returns as many widths as it is given, and
    every one of them is a number: none prints as the placeholder. *)
Theorem normalizeColumnWidths_length (columnWidths : list string) :
  length (normalizeColumnWidths p MIN columnWidths) = length columnWidths
  ∧ Forall (fun columnWidth => Js.toString columnWidth ≠ "auto")
      (normalizeColumnWidths p MIN columnWidths).
Proof.
  split.
  - unfold normalizeColumnWidths. cbv zeta.
    destruct (Js.strict_eq _ _);
      rewrite ?length_imap, ?length_map, calculateMissingColumnWidths_entries;
      by rewrite !length_map.
  - apply Forall_forall. intros v _. apply toString_neq_auto.
Qed.

End NormalizeProperties.

(** ** The document utilities *)

Section DocumentProperties.

Import Model.

Lemma nodeAt_app (node : Node) (path path' : Path) :
  nodeAt node (path ++ path') = nodeAt node path ≫= fun inner => nodeAt inner path'.
Proof.
  revert node. induction path as [|index path IH]; intros node; [done|].
  cbn [app nodeAt]. destruct (getChild node index); [apply IH | done].
Qed.

Lemma nodeAt_Text (data : string) (path : Path) :
  is_Some (nodeAt (Text data) path) ↔ path = [].
Proof.
  destruct path; cbn.
  - split; [done | by eexists].
  - split; [by intros [? ?] | done].
Qed.

(** The items of a range on a node are the node and the nodes below it. *)
Lemma elem_of_getItems (node : Node) (here item : Path) :
  item ∈ getItems node here
  ↔ ∃ inside, item = here ++ inside ∧ is_Some (nodeAt node inside).
Proof.
  revert here item.
  induction node as [data|name attributes children IH] using Node_induction;
    intros here item.
  - cbn [getItems]. rewrite list_elem_of_singleton. split.
    + intros ->. exists []. split; [by rewrite app_nil_r | by eexists].
    + intros (inside & -> & Hin). apply nodeAt_Text in Hin as ->.
      by rewrite app_nil_r.
  - cbn [getItems]. rewrite elem_of_cons.
    assert (∀ index,
      item ∈ getChildrenItems getItems here children index
      ↔ ∃ j child inside,
          children !! j = Some child
          ∧ item = here ++ [(index + j)%nat] ++ inside
          ∧ is_Some (nodeAt child inside)) as Hchildren.
    { induction IH as [|child children Hchild _ IHchildren]; intros index.
      - cbn [getChildrenItems]. rewrite elem_of_nil. split; [done|].
        by intros (j & ? & ? & ? & _).
      - cbn [getChildrenItems]. rewrite elem_of_app, Hchild, IHchildren.
        split.
        + intros [(inside & -> & Hin)|(j & child' & inside & Hj & -> & Hin)].
          * exists 0%nat, child, inside. rewrite Nat.add_0_r.
            by rewrite <- app_assoc.
          * exists (S j), child', inside. by rewrite Nat.add_succ_r.
        + intros ([|j] & child' & inside & Hj & -> & Hin).
          * left. injection Hj as <-. exists inside.
            by rewrite Nat.add_0_r, <- app_assoc.
          * right. exists j, child', inside. by rewrite Nat.add_succ_r. }
    rewrite Hchildren. split.
    + intros [->|(j & child & inside & Hj & -> & Hin)].
      * exists []. split; [by rewrite app_nil_r | by eexists].
      * exists (j :: inside). split; [done|]. cbn [nodeAt getChild].
        by rewrite Hj.
    + intros ([|j inside] & -> & Hin).
      * left. by rewrite app_nil_r.
      * right. cbn [nodeAt getChild] in Hin.
        destruct (children !! j) as [child|] eqn:Hj; [|by destruct Hin].
        by exists j, child, inside.
Qed.

(** The inner loop adds the tables with a [columnWidths] attribute among the
    items, and nothing else. *)
Lemma elem_of_collectTables (root : Node) (tableNode : Path) (node : Node)
    (affectedTables : gset Path) (item : Path) :
  item ∈ collectTables root tableNode node affectedTables
  ↔ item ∈ affectedTables
    ∨ (item ∈ getItems node tableNode
       ∧ ∃ found,
           nodeAt root item = Some found
           ∧ name_of found = Some "table"%string
           ∧ is_Some (columnWidths (attributes_of found))).
Proof.
  unfold collectTables. revert affectedTables.
  induction (getItems node tableNode) as [|item' items IH];
    intros affectedTables; cbn [foldl].
  - rewrite elem_of_nil. tauto.
  - rewrite IH, elem_of_cons. clear IH.
    assert (item ∈ affectedTables
            ∨ item ∈ items
              ∧ (∃ found0,
                   nodeAt root item = Some found0
                   ∧ name_of found0 = Some "table"%string
                   ∧ is_Some (columnWidths (attributes_of found0)))
            → item ∈ affectedTables
              ∨ (item = item' ∨ item ∈ items)
                ∧ (∃ found0,
                     nodeAt root item = Some found0
                     ∧ name_of found0 = Some "table"%string
                     ∧ is_Some (columnWidths (attributes_of found0))))
      as Hweaken by tauto.
    destruct (nodeAt root item') as [found|] eqn:Hfound.
    + destruct (is_element found && bool_decide (name_of found = Some "table"%string)
                && hasAttribute_columnWidths found) eqn:Htable.
      * apply andb_true_iff in Htable as [Htable Hattr].
        apply andb_true_iff in Htable as [_ Hname].
        apply bool_decide_eq_true in Hname, Hattr.
        rewrite elem_of_union, elem_of_singleton. split.
        -- intros [[?| ->]|?]; [by left | right | tauto].
           split; [by left | by exists found].
        -- intros [?|[[->|?] ?]]; tauto.
      * split; [exact Hweaken|].
        intros [?|[[->|?] Hitem]]; [by left | exfalso | by right].
        destruct Hitem as (found' & Hfound' & Hname & Hattr).
        rewrite Hfound in Hfound'. injection Hfound' as <-.
        destruct found as [|name attributes children]; [done|].
        cbn [is_element andb] in Htable.
        apply andb_false_iff in Htable as [Hn|Ha].
        -- by apply bool_decide_eq_false in Hn.
        -- by apply bool_decide_eq_false in Ha.
    + split; [exact Hweaken|].
      intros [?|[[->|?] Hitem]]; [by left | exfalso | by right].
      destruct Hitem as (found' & Hfound' & _). congruence.
Qed.

Lemma deepest_named_valid (root : Node) (parentName : string) (node : Node)
    (here path : Path) (found : option Path) (result : Path) :
  nodeAt root here = Some node →
  (∀ ancestor, found = Some ancestor →
     ∃ n, nodeAt root ancestor = Some n ∧ name_of n = Some parentName) →
  deepest_named parentName node here path found = Some result →
  ∃ n, nodeAt root result = Some n ∧ name_of n = Some parentName.
Proof.
  revert node here found.
  induction path as [|index path IH]; intros node here found Hhere Hfound;
    cbn [deepest_named].
  - case_bool_decide as Hname.
    + intros [= <-]. eauto.
    + apply Hfound.
  - destruct (getChild node index) as [child|] eqn:Hchild; [|done].
    apply IH.
    + rewrite nodeAt_app, Hhere. cbn. by rewrite Hchild.
    + case_bool_decide as Hname; [|done]. intros ? [= <-]. eauto.
Qed.

(** The node around a reference position, when there is one, is a table of
    the document. *)
Lemma tableNode_valid (root : Node) (position : Position) (table : Path) :
  tableNode root position = Some table →
  ∃ node, nodeAt root table = Some node ∧ name_of node = Some "table"%string.
Proof.
  unfold tableNode, findAncestor.
  assert (deepest_named "table" root [] (parent position) None = Some table →
    ∃ node, nodeAt root table = Some node ∧ name_of node = Some "table"%string)
    as Hancestor.
  { apply deepest_named_valid; done. }
  destruct (nodeAfter root position) as [after|]; [|done].
  case_bool_decide as Hname; [|done]. intros [= <-].
  destruct (nodeAt root after) as [node|]; [|done]. eauto.
Qed.

Lemma getAffectedTables_from_spec (changes : list DiffItem) (root : Node)
    (affectedTables : gset Path) :
  (∀ change position,
     In change changes → referencePosition root change = Some position →
     is_Some (tableNode root position)) →
  ∃ result,
    getAffectedTables_from changes root affectedTables = Some result
    ∧ ∀ item,
        item ∈ result
        ↔ item ∈ affectedTables
          ∨ ∃ change position table,
              In change changes
              ∧ referencePosition root change = Some position
              ∧ tableNode root position = Some table
              ∧ (∃ inside, item = table ++ inside)
              ∧ ∃ found,
                  nodeAt root item = Some found
                  ∧ name_of found = Some "table"%string
                  ∧ is_Some (columnWidths (attributes_of found)).
Proof.
  revert affectedTables.
  induction changes as [|change changes IH]; intros affectedTables Hok;
    cbn [getAffectedTables_from].
  - eexists. split; [done|]. intros item. split; [by left|].
    by intros [?|(? & ? & ? & [] & _)].
  - destruct (referencePosition root change) as [position|] eqn:Hposition.
    + destruct (Hok change position) as [table Htable]; [by left | done |].
      rewrite Htable.
      destruct (tableNode_valid root position table Htable) as (node & Hnode & _).
      rewrite Hnode.
      destruct (IH (collectTables root table node affectedTables))
        as (result & -> & Hresult).
      { intros change' position' Hin. apply Hok. by right. }
      eexists. split; [done|]. intros item.
      rewrite Hresult, elem_of_collectTables, elem_of_getItems. split.
      * intros [[?|[(inside & -> & _) Hfound]]|
                (change' & position' & table' & Hin & Hrest)].
        -- by left.
        -- right. exists change, position, table.
           split; [by left|]. repeat split; eauto.
        -- right. exists change', position', table'. split; [by right | done].
      * intros [?|(change' & position' & table' & [<-|Hin] & Hposition'
                   & Htable' & (inside & ->) & found & Hfound & Hrest)].
        -- by left; left.
        -- rewrite Hposition in Hposition'. injection Hposition' as <-.
           rewrite Htable in Htable'. injection Htable' as <-.
           left; right. split; [|eauto]. exists inside. split; [done|].
           rewrite nodeAt_app, Hnode in Hfound. by eexists.
        -- right. exists change', position', table'. repeat split; eauto.
    + destruct (IH affectedTables) as (result & -> & Hresult).
      { intros change' position' Hin. apply Hok. by right. }
      eexists. split; [done|]. intros item. rewrite Hresult. split.
      * intros [?|(change' & position' & table' & Hin & Hrest)]; [by left|].
        right. exists change', position', table'. split; [by right | done].
      * intros [?|(change' & position' & table' & [<-|Hin] & Hposition'
                   & Hrest)]; [by left | congruence |].
        right. by exists change', position', table'.
Qed.

(** C6: when every reference position has a table around it, the call
    returns, and for every change that yields a reference position, every
    table with a [columnWidths] attribute in the range on the table around
    that position, the table itself as well as the tables nested in it at
    any depth, is among the affected tables; whatever is among them is a
    table with that attribute.  Inserting a row into a table that holds a
    nested table gives both tables when both carry the attribute. *)
Theorem getAffectedTables_spec (changes : list DiffItem) (root : Node) :
  (∀ change position,
     In change changes → referencePosition root change = Some position →
     is_Some (tableNode root position)) →
  (∃ affectedTables,
     getAffectedTables changes root = Some affectedTables
     ∧ (∀ change position table inside node,
          In change changes →
          referencePosition root change = Some position →
          tableNode root position = Some table →
          nodeAt root (table ++ inside) = Some node →
          name_of node = Some "table"%string →
          is_Some (columnWidths (attributes_of node)) →
          table ++ inside ∈ affectedTables)
     ∧ (∀ item,
          item ∈ affectedTables →
          ∃ node,
            nodeAt root item = Some node
            ∧ name_of node = Some "table"%string
            ∧ is_Some (columnWidths (attributes_of node))))
  ∧ getAffectedTables
      [DiffItemInsert "tableRow" {| parent := [0%nat]; offset := 1 |}]
      nestedTablesDocument
    = Some {[ [0%nat]; [0; 0; 0; 0]%nat ]}.
Proof.
  intros Hok. split; [|by vm_compute].
  destruct (getAffectedTables_from_spec changes root ∅ Hok)
    as (affectedTables & Hresult & Hspec).
  exists affectedTables. split; [done|]. split.
  - intros change position table inside node Hin Hposition Htable Hnode Hname
      Hattr.
    apply Hspec. right. exists change, position, table.
    repeat split; eauto.
  - intros item [Hempty|(_ & _ & _ & _ & _ & _ & _ & Hfound)]%Hspec; [|done].
    by apply not_elem_of_empty in Hempty.
Qed.

(** C7: for a cell that the column index map knows, [leftEdge] is the entry
    of the map and [rightEdge] is [leftEdge + colspan - 1], the span being
    1 for a cell without a [colspan] attribute (a span is a count of
    columns: it is neither zero nor [NaN]); a cell mapped to column 2
    that spans 3 columns has the edges 2 and 4. *)
Theorem getColumnIndex_spec (root : Node) (cell : Path)
    (columnIndexMap : gmap Path Js.number) (index : Js.number) :
  columnIndexMap !! cell = Some index →
  getAttribute_colspan root cell ≠ Some (Js.of_Z 0) →
  getAttribute_colspan root cell ≠ Some Js.NaN →
  getColumnIndex root cell columnIndexMap
  = {| leftEdge := Some index;
       rightEdge :=
         Js.sub
           (Js.add index
              match getAttribute_colspan root cell with
              | Some colspan => colspan
              | None => Js.of_Z 1
              end)
           (Js.of_Z 1) |}
  ∧ (index = Js.of_Z 2 →
     getAttribute_colspan root cell = Some (Js.of_Z 3) →
     getColumnIndex root cell columnIndexMap
     = {| leftEdge := Some (Js.of_Z 2); rightEdge := Js.of_Z 4 |}).
Proof.
  intros Hindex H0 HNaN. unfold getColumnIndex. rewrite Hindex.
  assert (or_one (getAttribute_colspan root cell)
          = match getAttribute_colspan root cell with
            | Some colspan => colspan
            | None => Js.of_Z 1
            end) as ->.
  { unfold or_one. destruct (getAttribute_colspan root cell) as [n|]; [|done].
    destruct n; try done. cbn [Js.isNaN orb].
    case_bool_decide as Hq; [|done]. by rewrite Hq in H0. }
  split; [done|]. intros -> ->. by rewrite add_of_Z, sub_of_Z.
Qed.

(** C5: when the only change is the removal of a whole table, no reference
    position comes out of it and no table is affected. *)
Theorem getAffectedTables_table_removed (root : Node) (position : Position) :
  referencePosition root (DiffItemRemove "table" position) = None
  ∧ getAffectedTables [DiffItemRemove "table" position] root = Some ∅.
Proof. done. Qed.

End DocumentProperties.

(** ** Rounding and clamping: further properties *)

Section PrecisionProperties.

Variable p : nat.

Local Abbreviation multiplier := (Qc_of_Z (10 ^ Z.of_nat p)).



Lemma number_le_refl (x : Js.number) : Js.isNaN x = false → Js.le x x = true.
Proof.
  destruct x as [| | |q]; try done. intros _. by apply bool_decide_eq_true.
Qed.

Lemma number_le_total (x y : Js.number) :
  Js.isNaN x = false → Js.isNaN y = false → Js.le x y = false → Js.le y x = true.
Proof.
  destruct x as [| | |a], y as [| | |b]; try done. intros _ _. unfold Js.le.
  intros H%bool_decide_eq_false. apply bool_decide_eq_true.
  apply Qclt_le_weak. by apply Qcnot_le_lt.
Qed.

Lemma number_le_not_NaN (x y : Js.number) :
  Js.le x y = true → Js.isNaN x = false ∧ Js.isNaN y = false.
Proof. by destruct x, y. Qed.

Lemma toPrecision_le (x y : Js.number) :
  Js.le x y = true →
  Js.le (toPrecision p (Js.Num x)) (toPrecision p (Js.Num y)) = true.
Proof.
  destruct x as [| | |a], y as [| | |b]; try done;
    rewrite ?toPrecision_PosInf, ?toPrecision_NegInf, ?toPrecision_Fin; try done.
  unfold Js.le at 1. intros Hab%bool_decide_eq_true.
  rewrite le_fixed. apply bool_decide_eq_true. by apply round_mono.
Qed.


Lemma toPrecision_not_NaN (x : Js.number) :
  Js.isNaN x = false → Js.isNaN (toPrecision p (Js.Num x)) = false.
Proof.
  destruct x as [| | |q]; try done; intros _.
  - by rewrite toPrecision_PosInf.
  - by rewrite toPrecision_NegInf.
  - by rewrite toPrecision_Fin.
Qed.

Lemma clamp_between (number min max : Js.number) :
  Js.le min max = true →
  Js.isNaN number = false →
  Js.le (toPrecision p (Js.Num min)) (clamp p number min max) = true
  ∧ Js.le (clamp p number min max) (toPrecision p (Js.Num max)) = true.
Proof.
  intros Hbounds Hnumber.
  destruct (number_le_not_NaN _ _ Hbounds) as [Hmin Hmax].
  unfold clamp. destruct (Js.le number min) eqn:Hlow.
  - split; [|by apply toPrecision_le].
    by apply number_le_refl, toPrecision_not_NaN.
  - unfold Js.ge. destruct (Js.le max number) eqn:Hhigh.
    + split; [by apply toPrecision_le|].
      by apply number_le_refl, toPrecision_not_NaN.
    + split; apply toPrecision_le; by apply number_le_total.
Qed.



(** X3: [toPrecision] keeps the order of numbers: when [x <= y], the
    rounded [x] is at most the rounded [y]. *)
Theorem toPrecision_monotone (x y : Js.number) :
  Js.le x y = true →
  Js.le (toPrecision p (Js.Num x)) (toPrecision p (Js.Num y)) = true.
Proof. apply toPrecision_le. Qed.

(** X4: with bounds in order and a number that is not [NaN], what [clamp]
    returns lies between the rounded lower bound and the rounded upper
    bound. *)
Theorem clamp_range (number min max : Js.number) :
  Js.le min max = true →
  Js.isNaN number = false →
  Js.le (toPrecision p (Js.Num min)) (clamp p number min max) = true
  ∧ Js.le (clamp p number min max) (toPrecision p (Js.Num max)) = true.
Proof. apply clamp_between. Qed.


(** X6: [clamp] does not guard against [NaN]: a number that is [NaN] comes
    back as [NaN] whatever the bounds, and a bound that is [NaN] is never
    applied. *)
Theorem clamp_NaN (number min max : Js.number) :
  clamp p Js.NaN min max = Js.NaN
  ∧ clamp p number Js.NaN max
    = (if Js.ge number max then toPrecision p (Js.Num max)
       else toPrecision p (Js.Num number))
  ∧ clamp p number min Js.NaN
    = (if Js.le number min then toPrecision p (Js.Num min)
       else toPrecision p (Js.Num number)).
Proof.
  split; [|split].
  - unfold clamp, Js.ge. by destruct min, max.
  - unfold clamp. by destruct number.
  - unfold clamp, Js.ge. by destruct (Js.le number min).
Qed.

End PrecisionProperties.

(** ** What [parseFloat] and [trim] leave out *)

Section ParseSuffix.

Local Open Scope string_scope.

Variable c : ascii.
Variable rest : string.
Hypothesis Hc : ends_literal c = true.

Lemma ends_literal_digit : Js.digit_value c = None.
Proof using Hc. unfold ends_literal in Hc. by destruct (Js.digit_value c). Qed.

Lemma ends_literal_neq (x : ascii) :
  In x ["+"; "-"; "."; "e"; "E"; "I"; "n"; "f"; "i"; "t"; "y"]%char → c ≠ x.
Proof using Hc.
  intros Hx ->. unfold ends_literal in Hc.
  destruct (Js.digit_value x); [done|].
  apply negb_true_iff in Hc.
  assert (existsb (Ascii.eqb x)
            ["+"; "-"; "."; "e"; "E"; "I"; "n"; "f"; "i"; "t"; "y"]%char = true);
    [|congruence].
  apply existsb_exists. exists x. split; [done|]. apply Ascii.eqb_refl.
Qed.

Lemma read_digits_suffix (s : string) :
  Js.read_digits (s ++ String c rest)
  = ((Js.read_digits s).1, (Js.read_digits s).2 ++ String c rest).
Proof using Hc.
  induction s as [|x s IH].
  - change ("" ++ ?t) with t. cbn [Js.read_digits]. by rewrite ends_literal_digit.
  - change (String x s ++ ?t) with (String x (s ++ t)).
    cbn [Js.read_digits]. destruct (Js.digit_value x); [|done].
    rewrite IH. by destruct (Js.read_digits s).
Qed.

Lemma read_sign_suffix (s : string) :
  Js.read_sign (s ++ String c rest)
  = ((Js.read_sign s).1, (Js.read_sign s).2 ++ String c rest).
Proof using Hc.
  destruct s as [|x s].
  - change ("" ++ ?t) with t. unfold Js.read_sign.
    destruct c as [[] [] [] [] [] [] [] []]; done.
  - change (String x s ++ ?t) with (String x (s ++ t)).
    unfold Js.read_sign.
    destruct x as [[] [] [] [] [] [] [] []]; done.
Qed.

Lemma prefix_suffix (pattern s : string) :
  (∀ x, In x (list_ascii_of_string pattern) → c ≠ x) →
  String.prefix pattern (s ++ String c rest) = String.prefix pattern s.
Proof.
  revert s. induction pattern as [|a pattern IH]; intros s Hpattern.
  - by destruct s.
  - destruct s as [|x s].
    + change ("" ++ ?t) with t. cbn [String.prefix].
      destruct (ascii_dec a c) as [->|?]; [|done].
      exfalso. by apply (Hpattern c); [left|].
    + change (String x s ++ ?t) with (String x (s ++ t)). cbn [String.prefix].
      destruct (ascii_dec a x); [|done]. apply IH.
      intros y Hy. apply Hpattern. by right.
Qed.

Lemma read_exponent_suffix (s : string) :
  Js.read_exponent (s ++ String c rest) = Js.read_exponent s.
Proof using Hc.
  destruct s as [|x s].
  - change ("" ++ ?t) with t. unfold Js.read_exponent.
    destruct (Ascii.eqb_spec c "e") as [He|_].
    { exfalso. apply (ends_literal_neq "e"%char); [cbn; tauto | done]. }
    destruct (Ascii.eqb_spec c "E") as [He|_]; [|done].
    exfalso. apply (ends_literal_neq "E"%char); [cbn; tauto | done].
  - change (String x s ++ ?t) with (String x (s ++ t)). unfold Js.read_exponent.
    destruct ((x =? "e")%char || (x =? "E")%char); [|done].
    rewrite read_sign_suffix. destruct (Js.read_sign s) as [negative r].
    cbn [fst snd]. rewrite read_digits_suffix.
    by destruct (Js.read_digits r) as [[|d ds] r'].
Qed.

Lemma read_unsigned_suffix (s : string) :
  Js.read_unsigned (s ++ String c rest) = Js.read_unsigned s.
Proof using Hc.
  unfold Js.read_unsigned. rewrite prefix_suffix.
  2:{ intros x Hx. apply ends_literal_neq. cbn in Hx. cbn. tauto. }
  destruct (String.prefix "Infinity" s); [done|].
  rewrite read_digits_suffix. destruct (Js.read_digits s) as [ip r1].
  cbn [fst snd].
  assert (∀ fp r2,
    (match r1 with
     | String "." r => Js.read_digits r
     | _ => ([], r1)
     end) = (fp, r2) →
    (match r1 ++ String c rest with
     | String "." r => Js.read_digits r
     | _ => ([], r1 ++ String c rest)
     end) = (fp, r2 ++ String c rest)) as Hfraction.
  { intros fp r2. destruct r1 as [|x r1].
    - intros [= <- <-]. change ("" ++ ?t) with t.
      destruct c as [[] [] [] [] [] [] [] []]; done.
    - change (String x r1 ++ ?t) with (String x (r1 ++ t)).
      destruct x as [[] [] [] [] [] [] [] []]; try by intros [= <- <-].
      rewrite read_digits_suffix. by intros ->. }
  destruct (match r1 with
            | String "." r => Js.read_digits r
            | _ => ([], r1)
            end) as [fp r2] eqn:Hfp.
  rewrite (Hfraction fp r2 eq_refl).
  by rewrite read_exponent_suffix.
Qed.

End ParseSuffix.

(** *** White space and units *)

Section TrimAndParse.

Local Open Scope string_scope.

Lemma whitespace_ends_literal (c : ascii) :
  Js.is_whitespace c = true → ends_literal c = true.
Proof. destruct c as [[] [] [] [] [] [] [] []]; done. Qed.

Lemma trimStart_all_whitespace (w : string) :
  all_whitespace w = true → Js.trimStart w = "".
Proof.
  induction w as [|c w IH]; [done|]. cbn [all_whitespace Js.trimStart].
  intros [-> Hw]%andb_true_iff. by apply IH.
Qed.

Lemma trimEnd_all_whitespace (w : string) :
  all_whitespace w = true → Js.trimEnd w = "".
Proof.
  induction w as [|c w IH]; [done|]. cbn [all_whitespace Js.trimEnd].
  intros [-> Hw]%andb_true_iff. by rewrite IH.
Qed.

Lemma trimStart_whitespace_app (w s : string) :
  all_whitespace w = true → Js.trimStart (w ++ s) = Js.trimStart s.
Proof.
  induction w as [|c w IH]; [done|]. cbn [all_whitespace].
  intros [Hc Hw]%andb_true_iff.
  change (String c w ++ s) with (String c (w ++ s)). cbn [Js.trimStart].
  rewrite Hc. by apply IH.
Qed.

Lemma trimEnd_app_whitespace (s w : string) :
  all_whitespace w = true → Js.trimEnd (s ++ w) = Js.trimEnd s.
Proof.
  intros Hw. induction s as [|c s IH].
  - change ("" ++ w) with w. by rewrite trimEnd_all_whitespace.
  - change (String c s ++ w) with (String c (s ++ w)). cbn [Js.trimEnd].
    by rewrite IH.
Qed.

(** White space around a string does not change what it trims to. *)
Lemma trim_padding (before s after : string) :
  all_whitespace before = true → all_whitespace after = true →
  Js.trim (before ++ s ++ after) = Js.trim s.
Proof.
  intros Hbefore Hafter. unfold Js.trim.
  rewrite trimStart_whitespace_app by done.
  induction s as [|c s IH].
  - change ("" ++ after) with after.
    by rewrite trimStart_all_whitespace.
  - change (String c s ++ after) with (String c (s ++ after)).
    cbn [Js.trimStart]. destruct (Js.is_whitespace c); [exact IH|].
    change (String c (s ++ after)) with (String c s ++ after).
    by apply trimEnd_app_whitespace.
Qed.

Lemma trimStart_app (s : string) (c : ascii) (rest : string) :
  Js.is_whitespace c = false →
  Js.trimStart (s ++ String c rest) = Js.trimStart s ++ String c rest.
Proof.
  intros Hc. induction s as [|x s IH].
  - change ("" ++ ?t) with t. cbn [Js.trimStart]. by rewrite Hc.
  - change (String x s ++ ?t) with (String x (s ++ t)). cbn [Js.trimStart].
    by destruct (Js.is_whitespace x).
Qed.

Lemma trimEnd_app_no_whitespace (s unit : string) :
  unit ≠ "" → Js.no_whitespace unit = true → Js.trimEnd (s ++ unit) = s ++ unit.
Proof.
  intros Hne Hunit. induction s as [|x s IH].
  - by apply trimEnd_no_whitespace.
  - change (String x s ++ unit) with (String x (s ++ unit)). cbn [Js.trimEnd].
    rewrite IH. destruct (s ++ unit) eqn:Hs; [|done].
    destruct s; [|done]. by destruct unit.
Qed.

(** The white space that [trimEnd] removes. *)
Lemma trimEnd_split (s : string) :
  ∃ w, s = Js.trimEnd s ++ w ∧ all_whitespace w = true.
Proof.
  induction s as [|c s (w & Hs & Hw)]; [by exists ""|].
  cbn [Js.trimEnd]. destruct (Js.trimEnd s) as [|x t] eqn:Ht.
  - change ("" ++ w) with w in Hs. subst w.
    destruct (Js.is_whitespace c) eqn:Hc.
    + exists (String c s). split; [done|]. cbn [all_whitespace]. by rewrite Hc.
    + by exists s.
  - exists w. split; [|done].
    change (String c (String x t) ++ w) with (String c (String x t ++ w)).
    by rewrite <- Hs.
Qed.

(** [parseFloat] does not read past a character that ends the literal. *)
Lemma parseFloat_suffix (s : string) (c : ascii) (rest : string) :
  ends_literal c = true → Js.is_whitespace c = false →
  Js.parseFloat_string (s ++ String c rest) = Js.parseFloat_string s.
Proof.
  intros Hc Hws. unfold Js.parseFloat_string.
  rewrite trimStart_app, read_sign_suffix by done.
  destruct (Js.read_sign (Js.trimStart s)) as [negative r]. cbn [fst snd].
  by rewrite read_unsigned_suffix.
Qed.

Lemma parseFloat_whitespace_suffix (s w : string) :
  all_whitespace w = true →
  Js.parseFloat_string (s ++ w) = Js.parseFloat_string s.
Proof.
  intros Hw. destruct w as [|c rest].
  { by rewrite append_nil_r. }
  cbn [all_whitespace] in Hw. apply andb_true_iff in Hw as [Hc Hrest].
  pose proof (whitespace_ends_literal c Hc) as Hend.
  unfold Js.parseFloat_string.
  assert (Js.trimStart (s ++ String c rest) = ""
          ∧ Js.trimStart s = ""
          ∨ Js.trimStart (s ++ String c rest) = Js.trimStart s ++ String c rest)
    as [[-> ->] | ->].
  { induction s as [|x s IH].
    - left. split; [|done]. change ("" ++ ?t) with t. cbn [Js.trimStart].
      rewrite Hc. by apply trimStart_all_whitespace.
    - change (String x s ++ ?t) with (String x (s ++ t)). cbn [Js.trimStart].
      destruct (Js.is_whitespace x); [done | by right]. }
  - done.
  - rewrite read_sign_suffix by done.
    destruct (Js.read_sign (Js.trimStart s)) as [negative r]. cbn [fst snd].
    by rewrite read_unsigned_suffix.
Qed.

Lemma parseFloat_trimEnd (s : string) :
  Js.parseFloat_string (Js.trimEnd s) = Js.parseFloat_string s.
Proof.
  destruct (trimEnd_split s) as (w & Hs & Hw).
  rewrite Hs at 2. by rewrite parseFloat_whitespace_suffix.
Qed.

Lemma parseFloat_trimStart (s : string) :
  Js.parseFloat_string (Js.trimStart s) = Js.parseFloat_string s.
Proof.
  unfold Js.parseFloat_string. f_equal.
  induction s as [|c s IH]; [done|]. cbn [Js.trimStart].
  destruct (Js.is_whitespace c) eqn:Hc; [done|].
  cbn [Js.trimStart]. by rewrite Hc.
Qed.

(** Trimming a string does not change the number it parses to. *)
Lemma parseFloat_trim (s : string) :
  Js.parseFloat_string (Js.trim s) = Js.parseFloat_string s.
Proof. unfold Js.trim. by rewrite parseFloat_trimEnd, parseFloat_trimStart. Qed.

Lemma is_unit_cons (unit : string) :
  is_unit unit = true →
  ∃ c rest,
    unit = String c rest ∧ ends_literal c = true ∧ Js.is_whitespace c = false
    ∧ Js.no_whitespace unit = true.
Proof.
  destruct unit as [|c rest]; [done|]. cbn [is_unit].
  intros [Hc Hunit]%andb_true_iff. exists c, rest. repeat split; try done.
  cbn [Js.no_whitespace] in Hunit. apply andb_true_iff in Hunit as [Hws _].
  by apply negb_true_iff.
Qed.

(** A unit after a width changes neither that it is no placeholder nor the
    number it stands for. *)
Lemma trim_unit (s unit : string) :
  is_unit unit = true → Js.trim (s ++ unit) = Js.trimStart s ++ unit.
Proof.
  intros (c & rest & -> & Hc & Hws & Hunit)%is_unit_cons. unfold Js.trim.
  rewrite trimStart_app by done. by apply trimEnd_app_no_whitespace.
Qed.

Lemma parseFloat_unit (s unit : string) :
  is_unit unit = true →
  Js.parseFloat_string (s ++ unit) = Js.parseFloat_string s.
Proof.
  intros (c & rest & -> & Hc & Hws & Hunit)%is_unit_cons.
  by apply parseFloat_suffix.
Qed.

End TrimAndParse.

(** ** Raw widths that stand for the same widths *)

Section RawWidths.

Variable p : nat.
Variable MIN : Qc.

Local Open Scope string_scope.

(** What [normalizeColumnWidths] makes of the widths that
    [calculateMissingColumnWidths] returns. *)
Lemma normalizeColumnWidths_calculated (l1 l2 : list string) :
  calculateMissingColumnWidths p MIN l1 = calculateMissingColumnWidths p MIN l2 →
  normalizeColumnWidths p MIN l1 = normalizeColumnWidths p MIN l2.
Proof. unfold normalizeColumnWidths. by intros ->. Qed.

(** The raw widths count through two things only: whether the trimmed width
    is the placeholder, and the number it parses to. *)
Lemma calculateMissingColumnWidths_ext (l1 l2 : list string) :
  Forall2
    (fun a b =>
       (Js.trim a =? "auto") = (Js.trim b =? "auto")
       ∧ Js.parseFloat_string (Js.trim a) = Js.parseFloat_string (Js.trim b))
    l1 l2 →
  calculateMissingColumnWidths p MIN l1 = calculateMissingColumnWidths p MIN l2.
Proof.
  intros H. rewrite !calculateMissingColumnWidths_entries.
  assert (fairShare MIN l1 = fairShare MIN l2) as ->.
  { unfold fairShare. cbv zeta. f_equal. f_equal; [f_equal|].
    - unfold sumArray. f_equal. f_equal.
      induction H as [|a b l1 l2 [Hauto Hparse] _ IH]; [done|].
      cbn [map List.filter]. rewrite Hauto.
      destruct (Js.trim b =? "auto"); cbn [negb]; [done|].
      cbn [map Js.parseFloat]. by rewrite Hparse, IH.
    - do 2 f_equal.
      induction H as [|a b l1 l2 [Hauto Hparse] _ IH]; [done|].
      cbn [map List.filter]. rewrite Hauto.
      destruct (Js.trim b =? "auto"); cbn [length]; by rewrite IH. }
  generalize (fairShare MIN l2). intros share.
  induction H as [|a b l1 l2 [Hauto Hparse] _ IH]; [done|].
  cbn [map]. rewrite IH, Hauto. f_equal.
  destruct (Js.trim b =? "auto"); [done|].
  by rewrite !toPrecision_Str, Hparse.
Qed.

Lemma percent_neq_auto (s : string) : s ++ "%" ≠ "auto".
Proof. by destruct s as [|? [|? [|? [|? [|? ?]]]]]. Qed.

(** X7: a percent sign after a width that is no placeholder changes
    nothing: the widths are read through [parseFloat], which stops at the
    sign. *)
Theorem normalizeColumnWidths_percent (columnWidths : list string) :
  normalizeColumnWidths p MIN
    (map (fun columnWidth =>
            if Js.trim columnWidth =? "auto" then columnWidth
            else columnWidth ++ "%")
       columnWidths)
  = normalizeColumnWidths p MIN columnWidths.
Proof.
  apply normalizeColumnWidths_calculated, calculateMissingColumnWidths_ext.
  induction columnWidths as [|s l IH]; cbn [map]; constructor; [|exact IH].
  destruct (Js.trim s =? "auto") eqn:Hauto; [by rewrite Hauto|].
  rewrite (trim_unit s "%") by done. split.
  - symmetry. rewrite ?Hauto. symmetry. apply String.eqb_neq, percent_neq_auto.
  - rewrite parseFloat_unit by done.
    by rewrite parseFloat_trimStart, parseFloat_trim.
Qed.

(** X8: white space before and after the raw widths changes nothing, the
    placeholder included: every raw width is trimmed first. *)
Theorem normalizeColumnWidths_white_space
    (before after : string) (columnWidths : list string) :
  all_whitespace before = true →
  all_whitespace after = true →
  normalizeColumnWidths p MIN
    (map (fun columnWidth => before ++ columnWidth ++ after) columnWidths)
  = normalizeColumnWidths p MIN columnWidths.
Proof.
  intros Hbefore Hafter.
  apply normalizeColumnWidths_calculated, calculateMissingColumnWidths_ext.
  induction columnWidths as [|s l IH]; cbn [map]; constructor; [|exact IH].
  by rewrite trim_padding.
Qed.

(** X26: the minimum width is for the placeholders only: without a
    placeholder it plays no part, and a known width below it is not raised
    to it. *)
Theorem normalizeColumnWidths_known_widths
    (MIN' : Qc) (columnWidths : list string) :
  Forall (fun columnWidth => (Js.trim columnWidth =? "auto") = false)
    columnWidths →
  normalizeColumnWidths p MIN columnWidths
  = normalizeColumnWidths p MIN' columnWidths.
Proof.
  intros Hknown.
  assert (calculateMissingColumnWidths p MIN columnWidths
          = calculateMissingColumnWidths p MIN' columnWidths) as Hcalc.
  { rewrite !calculateMissingColumnWidths_entries, !map_map.
    apply map_ext_in. intros s Hs. rewrite List.Forall_forall in Hknown.
    by rewrite (Hknown s Hs). }
  unfold normalizeColumnWidths. by rewrite Hcalc.
Qed.

End RawWidths.

(** ** The widths that normalizing returns *)

Section Rescale.

Variable p : nat.
Variable MIN : Qc.

Local Abbreviation multiplier := (Qc_of_Z (10 ^ Z.of_nat p)).
Local Open Scope string_scope.





Local Open Scope Z_scope.
























End Rescale.

(** ** Sets of changes *)

Section ChangeSets.

Import Model.

Lemma collectTables_union (root : Node) (tableNode : Path) (node : Node)
    (affectedTables : gset Path) :
  collectTables root tableNode node affectedTables
  = affectedTables ∪ collectTables root tableNode node ∅.
Proof.
  apply set_eq. intros item.
  rewrite elem_of_union, !elem_of_collectTables, elem_of_empty. tauto.
Qed.

Lemma getAffectedTables_from_union (changes : list DiffItem) (root : Node)
    (affectedTables : gset Path) :
  getAffectedTables_from changes root affectedTables
  = (fun found => affectedTables ∪ found)
      <$> getAffectedTables_from changes root ∅.
Proof.
  revert affectedTables.
  induction changes as [|change changes IH]; intros affectedTables;
    cbn [getAffectedTables_from].
  - cbn. by rewrite (right_id_L ∅ (∪)).
  - destruct (referencePosition root change) as [position|]; [|apply IH].
    destruct (tableNode root position) as [table|]; [|done].
    destruct (nodeAt root table) as [node|]; [|done].
    rewrite IH, (IH (collectTables root table node ∅)).
    rewrite (collectTables_union _ _ _ affectedTables).
    destruct (getAffectedTables_from changes root ∅) as [found|]; [|done].
    cbn. by rewrite (assoc_L (∪)).
Qed.

Lemma getAffectedTables_from_app (before after : list DiffItem) (root : Node)
    (affectedTables : gset Path) :
  getAffectedTables_from (before ++ after) root affectedTables
  = getAffectedTables_from before root affectedTables
    ≫= getAffectedTables_from after root.
Proof.
  revert affectedTables.
  induction before as [|change before IH]; intros affectedTables; [done|].
  cbn [app getAffectedTables_from].
  destruct (referencePosition root change) as [position|]; [|apply IH].
  destruct (tableNode root position) as [table|]; [|done].
  destruct (nodeAt root table) as [node|]; [|done]. apply IH.
Qed.

(** X13: the affected tables of two lists of changes, one after the other,
    are those of the first together with those of the second; the call
    raises when it raises on either list. *)
Theorem getAffectedTables_app (before after : list DiffItem) (root : Node) :
  getAffectedTables (before ++ after) root
  = match getAffectedTables before root, getAffectedTables after root with
    | Some affectedBefore, Some affectedAfter =>
        Some (affectedBefore ∪ affectedAfter)
    | _, _ => None
    end.
Proof.
  unfold getAffectedTables. rewrite getAffectedTables_from_app.
  destruct (getAffectedTables_from before root ∅) as [affectedBefore|]; [|done].
  cbn. rewrite getAffectedTables_from_union.
  by destruct (getAffectedTables_from after root ∅).
Qed.

Lemma getAffectedTables_from_None (changes : list DiffItem) (root : Node)
    (affectedTables : gset Path) :
  getAffectedTables_from changes root affectedTables = None
  ↔ ∃ change position,
      In change changes
      ∧ referencePosition root change = Some position
      ∧ tableNode root position = None.
Proof.
  revert affectedTables.
  induction changes as [|change changes IH]; intros affectedTables;
    cbn [getAffectedTables_from].
  - split; [done|]. by intros (? & ? & [] & _).
  - destruct (referencePosition root change) as [position|] eqn:Hposition.
    + destruct (tableNode root position) as [table|] eqn:Htable.
      * destruct (tableNode_valid root position table Htable) as (node & -> & _).
        rewrite IH. split.
        -- intros (change' & position' & Hin & Hrest).
           exists change', position'. split; [by right | done].
        -- intros (change' & position' & [<-|Hin] & Hposition' & Htable').
           ++ congruence.
           ++ by exists change', position'.
      * split; [|done]. intros _. exists change, position.
        split; [by left | done].
    + rewrite IH. split.
      * intros (change' & position' & Hin & Hrest).
        exists change', position'. split; [by right | done].
      * intros (change' & position' & [<-|Hin] & Hposition' & Htable').
        -- congruence.
        -- by exists change', position'.
Qed.

(** X15: the call raises, on the range of a table that is not there, exactly
    when a change yields a reference position that has no table after it
    and no table around it. *)
Theorem getAffectedTables_raises (changes : list DiffItem) (root : Node) :
  getAffectedTables changes root = None
  ↔ ∃ change position,
      In change changes
      ∧ referencePosition root change = Some position
      ∧ tableNode root position = None.
Proof. apply getAffectedTables_from_None. Qed.

Lemma getAffectedTables_returns (changes : list DiffItem) (root : Node)
    (affectedTables : gset Path) :
  getAffectedTables changes root = Some affectedTables →
  ∀ change position,
    In change changes → referencePosition root change = Some position →
    is_Some (tableNode root position).
Proof.
  intros Hresult change position Hin Hposition.
  destruct (tableNode root position) as [table|] eqn:Htable; [by eexists|].
  assert (getAffectedTables changes root = None); [|congruence].
  apply getAffectedTables_from_None. by exists change, position.
Qed.

(** X16: every affected table lies at or below the table around the
    reference position of some change: a table that encloses the changed
    one, or stands beside it, is not affected. *)
Theorem getAffectedTables_local (changes : list DiffItem) (root : Node)
    (affectedTables : gset Path) (item : Path) :
  getAffectedTables changes root = Some affectedTables →
  item ∈ affectedTables →
  ∃ change position table inside,
    In change changes
    ∧ referencePosition root change = Some position
    ∧ tableNode root position = Some table
    ∧ item = table ++ inside.
Proof.
  intros Hresult Hitem.
  destruct (getAffectedTables_from_spec changes root ∅
              (getAffectedTables_returns _ _ _ Hresult))
    as (result & Hresult' & Hspec).
  unfold getAffectedTables in Hresult. rewrite Hresult in Hresult'.
  injection Hresult' as <-.
  apply Hspec in Hitem
    as [Hempty|(change & position & table & Hin & Hposition & Htable
                & (inside & ->) & _)].
  - by apply not_elem_of_empty in Hempty.
  - by exists change, position, table, inside.
Qed.

(** X14: neither the order of the changes nor their repetition counts: two
    lists of the same changes give the same affected tables, or both
    raise. *)
Theorem getAffectedTables_set_of_changes
    (changes changes' : list DiffItem) (root : Node) :
  (∀ change, In change changes ↔ In change changes') →
  getAffectedTables changes root = getAffectedTables changes' root.
Proof.
  intros Hsame.
  destruct (getAffectedTables changes root) as [affected|] eqn:Hresult.
  - destruct (getAffectedTables changes' root) as [affected'|] eqn:Hresult'.
    + f_equal. apply set_eq. intros item.
      destruct (getAffectedTables_from_spec changes root ∅
                  (getAffectedTables_returns _ _ _ Hresult))
        as (result & Hr & Hspec).
      destruct (getAffectedTables_from_spec changes' root ∅
                  (getAffectedTables_returns _ _ _ Hresult'))
        as (result' & Hr' & Hspec').
      unfold getAffectedTables in Hresult, Hresult'.
      rewrite Hresult in Hr. rewrite Hresult' in Hr'.
      injection Hr as <-. injection Hr' as <-.
      rewrite Hspec, Hspec'. split.
      * intros [?|(change & position & table & Hin & Hrest)]; [by left|].
        right. exists change, position, table. split; [by apply Hsame | done].
      * intros [?|(change & position & table & Hin & Hrest)]; [by left|].
        right. exists change, position, table. split; [by apply Hsame | done].
    + apply getAffectedTables_from_None in Hresult'
        as (change & position & Hin & Hposition & Htable).
      assert (getAffectedTables changes root = None); [|congruence].
      apply getAffectedTables_from_None. exists change, position.
      split; [by apply Hsame | done].
  - symmetry. apply getAffectedTables_from_None in Hresult
      as (change & position & Hin & Hposition & Htable).
    apply getAffectedTables_from_None. exists change, position.
    split; [by apply Hsame | done].
Qed.


Lemma getAffectedTables_skip (before after : list DiffItem) (change : DiffItem)
    (root : Node) :
  referencePosition root change = None →
  getAffectedTables (before ++ change :: after) root
  = getAffectedTables (before ++ after) root.
Proof.
  intros Hchange. unfold getAffectedTables.
  rewrite !getAffectedTables_from_app.
  destruct (getAffectedTables_from before root ∅) as [affected|]; [|done].
  cbn. by rewrite Hchange.
Qed.

(** X17: a change that concerns no table, row or cell can be left out,
    wherever it stands: an insertion of something else, a removal of
    something other than a row or a cell (of a whole table, too), an
    attribute change on a range that does not start before a table, a row
    or a cell. *)
Theorem getAffectedTables_other_changes
    (before after : list DiffItem) (change : DiffItem) (root : Node) :
  match change with
  | DiffItemInsert name _ =>
      ¬ In name ["table"; "tableRow"; "tableCell"]%string
  | DiffItemRemove name _ => ¬ In name ["tableRow"; "tableCell"]%string
  | DiffItemAttribute range =>
      ∀ item name,
        nodeAfter root (start range) = Some item →
        nodeAt root item ≫= name_of = Some name →
        ¬ In name ["table"; "tableRow"; "tableCell"]%string
  end →
  getAffectedTables (before ++ change :: after) root
  = getAffectedTables (before ++ after) root.
Proof.
  intros Hchange. apply getAffectedTables_skip.
  assert (∀ names name,
    ¬ In name names → includes names (Some name) = false) as Hincludes.
  { intros names name Hname. unfold includes.
    destruct (existsb _ _) eqn:Hex; [|done]. exfalso. apply Hname.
    apply existsb_exists in Hex as (name' & Hin & ->%String.eqb_eq). done. }
  destruct change as [name position|name position|range];
    cbn [referencePosition].
  - by rewrite Hincludes.
  - by rewrite Hincludes.
  - destruct (nodeAfter root (start range)) as [item|] eqn:Hitem; [|done].
    destruct (nodeAt root item ≫= name_of) as [name|] eqn:Hname; [|done].
    rewrite Hincludes; [done|]. by eapply Hchange.
Qed.

(** X18: a [colspan] that is absent, zero or [NaN] counts as one column:
    both edges of the cell are its column.  A cell that the map does not
    know has an undefined left edge and the right edge [NaN]; nothing
    raises. *)
Theorem getColumnIndex_edge_cases (root : Node) (cell : Path)
    (columnIndexMap : gmap Path Js.number) :
  (∀ index : Z,
     columnIndexMap !! cell = Some (Js.of_Z index) →
     getAttribute_colspan root cell = None
     ∨ getAttribute_colspan root cell = Some (Js.of_Z 0)
     ∨ getAttribute_colspan root cell = Some Js.NaN →
     getColumnIndex root cell columnIndexMap
     = {| leftEdge := Some (Js.of_Z index); rightEdge := Js.of_Z index |})
  ∧ (columnIndexMap !! cell = None →
     getColumnIndex root cell columnIndexMap
     = {| leftEdge := None; rightEdge := Js.NaN |}).
Proof.
  split.
  - intros index Hindex Hspan. unfold getColumnIndex. rewrite Hindex.
    assert (or_one (getAttribute_colspan root cell) = Js.of_Z 1) as ->.
    { destruct Hspan as [->|[->| ->]]; [done| |done].
      unfold or_one. by rewrite bool_decide_eq_true_2, orb_true_r. }
    rewrite add_of_Z, sub_of_Z. do 2 f_equal. lia.
  - intros Hindex. unfold getColumnIndex. by rewrite Hindex.
Qed.

End ChangeSets.

(** ** The view and the rendered document *)

Section RenderingProperties.

Local Open Scope string_scope.

Lemma find_total {A : Type} (predicate : A → bool) (array : list A) :
  JsArray.find (fun element => Some (predicate element)) array
  = Some (List.find predicate array).
Proof.
  induction array as [|element array IH]; [done|]. cbn [JsArray.find List.find].
  by destruct (predicate element).
Qed.

Lemma find_first_element_named (name : string) (children : list View.Node)
    (node : View.Node) :
  first_element_named name children node →
  List.find (View.is_element_named name) children = Some node.
Proof.
  intros (before & after & -> & Hbefore & Hnode).
  induction Hbefore as [|child before Hchild _ IH]; cbn [app List.find].
  - by rewrite Hnode.
  - by rewrite Hchild.
Qed.

Lemma find_no_element_named (name : string) (children : list View.Node) :
  Forall (fun child => View.is_element_named name child = false) children →
  List.find (View.is_element_named name) children = None.
Proof.
  induction 1 as [|child children Hchild _ IH]; [done|].
  cbn [List.find]. by rewrite Hchild.
Qed.

(** X24: the width of a table is that of its body group: of the first
    [tbody] of the first table element of its figure when there is one,
    whatever head the table has, of its first [thead] otherwise; with
    neither, the call raises. *)
Theorem getTableWidthInPixels_body_group
    (table : Model.Path) (editor : Editor)
    (viewFigure viewTable : View.Node)
    (figureChildren tableChildren : list View.Node) :
  toViewElement editor table = Some viewFigure →
  View.getChildren viewFigure = Some figureChildren →
  first_element_named "table" figureChildren viewTable →
  View.getChildren viewTable = Some tableChildren →
  (∀ tbody,
     first_element_named "tbody" tableChildren tbody →
     getTableWidthInPixels table editor
     = getElementWidthInPixels (mapViewToDom editor tbody))
  ∧ (∀ thead,
       Forall (fun child => View.is_element_named "tbody" child = false)
         tableChildren →
       first_element_named "thead" tableChildren thead →
       getTableWidthInPixels table editor
       = getElementWidthInPixels (mapViewToDom editor thead))
  ∧ (Forall (fun child => View.is_element_named "tbody" child = false)
       tableChildren →
     Forall (fun child => View.is_element_named "thead" child = false)
       tableChildren →
     getTableWidthInPixels table editor = None).
Proof.
  intros Hfigure Hchildren Htable%find_first_element_named Htchildren.
  assert (∀ elementName,
    getChildrenViewElement table elementName editor
    = Some (List.find (View.is_element_named elementName) tableChildren))
    as Hget.
  { intros elementName. unfold getChildrenViewElement.
    rewrite Hfigure. cbn [mbind option_bind]. rewrite Hchildren.
    cbn [mbind option_bind]. rewrite find_total, Htable.
    cbn [mbind option_bind]. rewrite Htchildren. cbn [mbind option_bind].
    apply find_total. }
  unfold getTableWidthInPixels. rewrite !Hget. cbn [mbind option_bind].
  split; [|split].
  - intros tbody Hbody%find_first_element_named. by rewrite Hbody.
  - intros thead Hnone%find_no_element_named Hhead%find_first_element_named.
    by rewrite Hnone, Hhead.
  - intros Hnone%find_no_element_named Hnone'%find_no_element_named.
    by rewrite Hnone, Hnone'.
Qed.


(** *** The resizer element of a cell *)

Lemma find_resizer (children : list View.Node) :
  Forall (fun child => View.is_text child = false) children →
  JsArray.find (fun viewElement => View.hasClass "ck-table-column-resizer" viewElement)
    children
  = Some
      (List.find
         (fun child =>
            bool_decide
              (View.hasClass "ck-table-column-resizer" child = Some true))
         children).
Proof.
  induction 1 as [|child children Hchild _ IH]; [done|].
  cbn [JsArray.find List.find].
  destruct child as [data|name classes inner|name classes]; [done|..];
    cbn [View.hasClass]; (destruct (existsb _ classes); [done|]); by rewrite IH.
Qed.

Lemma find_resizer_None (children : list View.Node) :
  List.find
    (fun child =>
       bool_decide (View.hasClass "ck-table-column-resizer" child = Some true))
    children = None
  ↔ resizers children = 0%nat.
Proof.
  unfold resizers. induction children as [|child children IH]; [done|].
  cbn [List.find List.filter]. destruct (bool_decide _); [done|]. exact IH.
Qed.

Lemma resizers_app (children children' : list View.Node) :
  resizers (children ++ children')%list
  = (resizers children + resizers children')%nat.
Proof. unfold resizers. by rewrite List.filter_app, length_app. Qed.

(** X20: on a cell whose children are elements, the call returns; the cell
    keeps its name, its classes and its children, in order, and holds one
    resizer element afterwards if it held none, and as many as before
    otherwise. *)
Theorem insertColumnResizerElement_resizers
    (name : string) (classes : list string) (children : list View.Node) :
  Forall (fun child => View.is_text child = false) children →
  ∃ children',
    insertColumnResizerElement (View.Element name classes children)
    = Some (View.Element name classes children')
    ∧ children `prefix_of` children'
    ∧ resizers children' = Nat.max 1 (resizers children).
Proof.
  intros Hchildren. unfold insertColumnResizerElement.
  rewrite find_resizer by done. cbn [mbind option_bind].
  destruct (List.find _ children) as [resizer|] eqn:Hfind.
  - exists children. split; [done|]. split; [done|].
    destruct (resizers children) eqn:Hcount; [|lia].
    apply find_resizer_None in Hcount. congruence.
  - exists (children ++ [View.UIElement "div" ["ck-table-column-resizer"]])%list.
    split; [done|]. split; [by apply prefix_app_r|].
    apply find_resizer_None in Hfind. rewrite resizers_app, Hfind. done.
Qed.

(** X19: on a cell whose children are elements, the call returns, and a
    second call leaves the cell as the first one left it. *)
Theorem insertColumnResizerElement_idempotent
    (name : string) (classes : list string) (children : list View.Node) :
  Forall (fun child => View.is_text child = false) children →
  ∃ viewCell,
    insertColumnResizerElement (View.Element name classes children)
    = Some viewCell
    ∧ insertColumnResizerElement viewCell = Some viewCell.
Proof.
  intros Hchildren. unfold insertColumnResizerElement at 1.
  rewrite find_resizer by done. cbn [mbind option_bind].
  destruct (List.find _ children) as [resizer|] eqn:Hfind.
  - eexists. split; [done|]. unfold insertColumnResizerElement.
    by rewrite find_resizer, Hfind.
  - eexists. split; [done|]. unfold insertColumnResizerElement.
    rewrite find_resizer.
    2:{ apply Forall_app. split; [done|]. by constructor. }
    cbn [mbind option_bind].
    destruct (List.find _ (children ++ _)%list) as [resizer|] eqn:Hfind'; [done|].
    apply find_resizer_None in Hfind'.
    rewrite resizers_app in Hfind'.
    change (resizers [View.UIElement "div" ["ck-table-column-resizer"]])
      with 1%nat in Hfind'.
    lia.
Qed.

(** *** Widths in pixels *)

Lemma parseFloat_pixels (P : nat) (k : Z) :
  Js.parseFloat_string (Js.toString (fixed P k) ++ "px") = fixed P k.
Proof. rewrite parseFloat_unit by done. apply parseFloat_toString_fixed. Qed.

(** X21: a computed width of so many pixels, as [123.45px], is read as that
    number: the unit is left out. *)
Theorem getElementWidthInPixels_pixels (P : nat) (k : Z)
    (style : Dom.CSSStyleDeclaration) :
  Dom.width style = Js.toString (fixed P k) ++ "px" →
  getElementWidthInPixels (Some {| Dom.computedStyle := style |})
  = Some (fixed P k).
Proof.
  intros Hwidth. unfold getElementWidthInPixels. cbn.
  by rewrite Hwidth, parseFloat_pixels.
Qed.


(** X23: unlike [sumArray], the outer width does not skip what it cannot
    read: it is [NaN] as soon as one of the four properties does not start
    with a number, as an empty [borderWidth]. *)
Theorem getDomCellOuterWidth_NaN (domCell : Dom.Element) :
  Js.parseFloat_string (Dom.width (Dom.computedStyle domCell)) = Js.NaN
  ∨ Js.parseFloat_string (Dom.paddingLeft (Dom.computedStyle domCell)) = Js.NaN
  ∨ Js.parseFloat_string (Dom.paddingRight (Dom.computedStyle domCell)) = Js.NaN
  ∨ Js.parseFloat_string (Dom.borderWidth (Dom.computedStyle domCell)) = Js.NaN →
  getDomCellOuterWidth domCell = Js.NaN.
Proof.
  unfold getDomCellOuterWidth. cbv zeta.
  intros [->|[->|[->| ->]]];
    repeat (destruct (Js.parseFloat_string _) as [| | |?]); done.
Qed.


(** *** The minimum width as a percentage *)


End RenderingProperties.

(** ** Instances at three digits and a minimum width of five percent *)

Section Instances.

Import Model.
Local Open Scope string_scope.








Lemma getAffectedTables_spec_witness :
  ∃ affectedTables,
    getAffectedTables
      [DiffItemInsert "tableRow" {| parent := [0%nat]; offset := 1 |}]
      nestedTablesDocument
    = Some affectedTables
    ∧ [0%nat] ∈ affectedTables
    ∧ [0; 0; 0; 0]%nat ∈ affectedTables.
Proof.
  assert (∀ change position,
    In change [DiffItemInsert "tableRow" {| parent := [0%nat]; offset := 1 |}] →
    referencePosition nestedTablesDocument change = Some position →
    is_Some (tableNode nestedTablesDocument position)) as Hok.
  { intros change position [<-|[]] Hposition.
    injection Hposition as <-. by eexists. }
  destruct (proj1 (getAffectedTables_spec _ _ Hok))
    as (affectedTables & Hresult & Hall & _).
  exists affectedTables. split; [exact Hresult|]. split.
  - eapply (Hall _ _ [0%nat] []); [by left | done | done | done..].
  - eapply (Hall _ _ [0%nat] [0; 0; 0]%nat); [by left | done | done | done..].
Defined.

Lemma getColumnIndex_spec_witness :
  ({[ [0; 0; 0]%nat := Js.of_Z 0; [0; 0; 1]%nat := Js.of_Z 1;
      [0; 0; 2]%nat := Js.of_Z 2 ]} : gmap Path Js.number)
    !! [0; 0; 2]%nat = Some (Js.of_Z 2)
  ∧ getAttribute_colspan spanningCellDocument [0; 0; 2]%nat = Some (Js.of_Z 3)
  ∧ getColumnIndex spanningCellDocument [0; 0; 2]%nat
      {[ [0; 0; 0]%nat := Js.of_Z 0; [0; 0; 1]%nat := Js.of_Z 1;
         [0; 0; 2]%nat := Js.of_Z 2 ]}
    = {| leftEdge := Some (Js.of_Z 2); rightEdge := Js.of_Z 4 |}.
Proof.
  split; [by vm_compute|]. split; [done|].
  destruct (getColumnIndex_spec spanningCellDocument [0; 0; 2]%nat
              {[ [0; 0; 0]%nat := Js.of_Z 0; [0; 0; 1]%nat := Js.of_Z 1;
                 [0; 0; 2]%nat := Js.of_Z 2 ]} (Js.of_Z 2))
    as [_ Hedges]; [by vm_compute..|].
  by apply Hedges.
Defined.

Lemma clamp_spec_witness :
  Js.le (Js.of_Z 5) (Js.of_Z 10) = true
  ∧ clamp 3 (Js.of_Z 5) (Js.of_Z 10) (Js.of_Z 90)
    = toPrecision 3 (Js.Num (Js.of_Z 10)).
Proof.
  split; [by vm_compute|]. apply (proj1 (clamp_spec 3 _ _ _)). by vm_compute.
Defined.


End Instances.

(** ** Further instances *)

Section FurtherInstances.

Import Model.
Local Open Scope string_scope.

Lemma toPrecision_monotone_witness :
  Js.le (Js.of_Z 1) (Js.of_Z 2) = true
  ∧ Js.le (toPrecision 3 (Js.Num (Js.of_Z 1))) (toPrecision 3 (Js.Num (Js.of_Z 2)))
    = true.
Proof.
  split; [by vm_compute|]. apply toPrecision_monotone. by vm_compute.
Defined.

Lemma clamp_range_witness :
  Js.le (Js.of_Z 10) (Js.of_Z 90) = true
  ∧ Js.isNaN (Js.of_Z 95) = false
  ∧ Js.le (toPrecision 3 (Js.Num (Js.of_Z 10)))
      (clamp 3 (Js.of_Z 95) (Js.of_Z 10) (Js.of_Z 90)) = true
  ∧ Js.le (clamp 3 (Js.of_Z 95) (Js.of_Z 10) (Js.of_Z 90))
      (toPrecision 3 (Js.Num (Js.of_Z 90))) = true.
Proof.
  split; [by vm_compute|]. split; [done|].
  apply clamp_range; [by vm_compute | done].
Defined.


Lemma normalizeColumnWidths_white_space_witness :
  all_whitespace " " = true
  ∧ all_whitespace "  " = true
  ∧ normalizeColumnWidths 3 (Qc_of_Z 5)
      (map (fun columnWidth => " " ++ columnWidth ++ "  ") ["40"; "auto"])
    = normalizeColumnWidths 3 (Qc_of_Z 5) ["40"; "auto"].
Proof.
  split; [done|]. split; [done|].
  by apply normalizeColumnWidths_white_space.
Defined.

Lemma normalizeColumnWidths_known_widths_witness :
  Forall (fun columnWidth => (Js.trim columnWidth =? "auto") = false)
    ["1"; "99"]
  ∧ normalizeColumnWidths 3 (Qc_of_Z 5) ["1"; "99"]
    = normalizeColumnWidths 3 (Qc_of_Z 50) ["1"; "99"].
Proof.
  assert (Forall (fun columnWidth => (Js.trim columnWidth =? "auto") = false)
            ["1"; "99"]) as Hknown.
  { by repeat constructor. }
  split; [exact Hknown|]. by apply normalizeColumnWidths_known_widths.
Defined.





Lemma getAffectedTables_set_of_changes_witness :
  (∀ change,
     In change
       [DiffItemInsert "tableRow" {| parent := [0%nat]; offset := 1 |};
        DiffItemRemove "tableCell" {| parent := [0; 0; 0; 0; 0]%nat; offset := 0 |}]
     ↔ In change
         [DiffItemRemove "tableCell" {| parent := [0; 0; 0; 0; 0]%nat; offset := 0 |};
          DiffItemInsert "tableRow" {| parent := [0%nat]; offset := 1 |};
          DiffItemRemove "tableCell" {| parent := [0; 0; 0; 0; 0]%nat; offset := 0 |}])
  ∧ getAffectedTables
      [DiffItemInsert "tableRow" {| parent := [0%nat]; offset := 1 |};
       DiffItemRemove "tableCell" {| parent := [0; 0; 0; 0; 0]%nat; offset := 0 |}]
      nestedTablesDocument
    = getAffectedTables
        [DiffItemRemove "tableCell" {| parent := [0; 0; 0; 0; 0]%nat; offset := 0 |};
         DiffItemInsert "tableRow" {| parent := [0%nat]; offset := 1 |};
         DiffItemRemove "tableCell" {| parent := [0; 0; 0; 0; 0]%nat; offset := 0 |}]
        nestedTablesDocument.
Proof.
  assert (∀ change,
     In change
       [DiffItemInsert "tableRow" {| parent := [0%nat]; offset := 1 |};
        DiffItemRemove "tableCell" {| parent := [0; 0; 0; 0; 0]%nat; offset := 0 |}]
     ↔ In change
         [DiffItemRemove "tableCell" {| parent := [0; 0; 0; 0; 0]%nat; offset := 0 |};
          DiffItemInsert "tableRow" {| parent := [0%nat]; offset := 1 |};
          DiffItemRemove "tableCell" {| parent := [0; 0; 0; 0; 0]%nat; offset := 0 |}])
    as Hsame.
  { intros change. cbn [In]. tauto. }
  split; [exact Hsame|]. by apply getAffectedTables_set_of_changes.
Defined.

Lemma getAffectedTables_raises_witness :
  referencePosition nestedTablesDocument
    (DiffItemRemove "tableRow" {| parent := []; offset := 5 |})
  = Some {| parent := []; offset := 5 |}
  ∧ tableNode nestedTablesDocument {| parent := []; offset := 5 |} = None
  ∧ getAffectedTables
      [DiffItemRemove "tableRow" {| parent := []; offset := 5 |}]
      nestedTablesDocument
    = None.
Proof.
  split; [done|]. split; [done|].
  apply (proj2 (getAffectedTables_raises _ _)).
  exists (DiffItemRemove "tableRow" {| parent := []; offset := 5 |}),
    {| parent := []; offset := 5 |}.
  split; [by left | by split].
Defined.

Lemma getAffectedTables_local_witness :
  getAffectedTables
    [DiffItemInsert "tableRow" {| parent := [0; 0; 0; 0]%nat; offset := 1 |}]
    nestedTablesDocument
  = Some {[ [0; 0; 0; 0]%nat ]}
  ∧ ∃ change position table inside,
      In change
        [DiffItemInsert "tableRow" {| parent := [0; 0; 0; 0]%nat; offset := 1 |}]
      ∧ referencePosition nestedTablesDocument change = Some position
      ∧ tableNode nestedTablesDocument position = Some table
      ∧ [0; 0; 0; 0]%nat = (table ++ inside)%list.
Proof.
  assert (getAffectedTables
    [DiffItemInsert "tableRow" {| parent := [0; 0; 0; 0]%nat; offset := 1 |}]
    nestedTablesDocument
  = Some {[ [0; 0; 0; 0]%nat ]}) as Hresult by by vm_compute.
  split; [exact Hresult|].
  apply (getAffectedTables_local _ _ _ _ Hresult). by apply elem_of_singleton.
Defined.

Lemma getAffectedTables_other_changes_witness :
  ¬ In "paragraph" ["table"; "tableRow"; "tableCell"]
  ∧ getAffectedTables
      ([DiffItemInsert "tableRow" {| parent := [0%nat]; offset := 1 |}]
       ++ DiffItemInsert "paragraph" {| parent := [0; 0; 1]%nat; offset := 1 |}
          :: [])%list
      nestedTablesDocument
    = getAffectedTables
        ([DiffItemInsert "tableRow" {| parent := [0%nat]; offset := 1 |}] ++ [])%list
        nestedTablesDocument.
Proof.
  assert (¬ In "paragraph" ["table"; "tableRow"; "tableCell"]) as Hname.
  { cbn [In]. intros [H|[H|[H|[]]]]; discriminate H. }
  split; [exact Hname|].
  by apply (getAffectedTables_other_changes _ _
              (DiffItemInsert "paragraph" {| parent := [0; 0; 1]%nat; offset := 1 |})).
Defined.

Lemma getColumnIndex_edge_cases_witness :
  ({[ [0; 0; 1]%nat := Js.of_Z 1 ]} : gmap Path Js.number) !! [0; 0; 1]%nat
  = Some (Js.of_Z 1)
  ∧ getAttribute_colspan spanningCellDocument [0; 0; 1]%nat = None
  ∧ getColumnIndex spanningCellDocument [0; 0; 1]%nat
      {[ [0; 0; 1]%nat := Js.of_Z 1 ]}
    = {| leftEdge := Some (Js.of_Z 1); rightEdge := Js.of_Z 1 |}.
Proof.
  split; [by vm_compute|]. split; [done|].
  apply (proj1 (getColumnIndex_edge_cases spanningCellDocument [0; 0; 1]%nat
                  {[ [0; 0; 1]%nat := Js.of_Z 1 ]}));
    [by vm_compute | by left].
Defined.

Lemma insertColumnResizerElement_idempotent_witness :
  Forall (fun child => View.is_text child = false)
    [View.Element "span" ["ck-table-bogus-paragraph"] [View.Text "a"]]
  ∧ ∃ viewCell,
      insertColumnResizerElement
        (View.Element "td" []
           [View.Element "span" ["ck-table-bogus-paragraph"] [View.Text "a"]])
      = Some viewCell
      ∧ insertColumnResizerElement viewCell = Some viewCell.
Proof.
  assert (Forall (fun child => View.is_text child = false)
    [View.Element "span" ["ck-table-bogus-paragraph"] [View.Text "a"]])
    as Hchildren.
  { by repeat constructor. }
  split; [exact Hchildren|].
  by apply insertColumnResizerElement_idempotent.
Defined.

Lemma insertColumnResizerElement_resizers_witness :
  Forall (fun child => View.is_text child = false)
    [View.Element "span" ["ck-table-bogus-paragraph"] [View.Text "a"]]
  ∧ ∃ children',
      insertColumnResizerElement
        (View.Element "td" []
           [View.Element "span" ["ck-table-bogus-paragraph"] [View.Text "a"]])
      = Some (View.Element "td" [] children')
      ∧ [View.Element "span" ["ck-table-bogus-paragraph"] [View.Text "a"]]
        `prefix_of` children'
      ∧ resizers children'
        = Nat.max 1
            (resizers
               [View.Element "span" ["ck-table-bogus-paragraph"] [View.Text "a"]]).
Proof.
  assert (Forall (fun child => View.is_text child = false)
    [View.Element "span" ["ck-table-bogus-paragraph"] [View.Text "a"]])
    as Hchildren.
  { by repeat constructor. }
  split; [exact Hchildren|].
  by apply insertColumnResizerElement_resizers.
Defined.

Lemma getElementWidthInPixels_pixels_witness :
  "123.45px" = Js.toString (fixed 2 12345) ++ "px"
  ∧ getElementWidthInPixels
      (Some
         {| Dom.computedStyle :=
              {| Dom.width := "123.45px";
                 Dom.paddingLeft := "";
                 Dom.paddingRight := "";
                 Dom.borderWidth := "" |} |})
    = Some (fixed 2 12345).
Proof.
  assert ("123.45px" = Js.toString (fixed 2 12345) ++ "px") as Hwidth
    by by vm_compute.
  split; [exact Hwidth|].
  by apply getElementWidthInPixels_pixels.
Defined.

Lemma getDomCellOuterWidth_NaN_witness :
  Js.parseFloat_string "" = Js.NaN
  ∧ getDomCellOuterWidth
      {| Dom.computedStyle :=
           {| Dom.width := "120px";
              Dom.paddingLeft := "6px";
              Dom.paddingRight := "6px";
              Dom.borderWidth := "" |} |}
    = Js.NaN.
Proof.
  split; [done|]. apply getDomCellOuterWidth_NaN. by right; right; right.
Defined.

Lemma getTableWidthInPixels_body_group_witness :
  first_element_named "table"
    [View.Element "table" []
       [View.Element "thead" [] []; View.Element "tbody" [] []]]
    (View.Element "table" []
       [View.Element "thead" [] []; View.Element "tbody" [] []])
  ∧ first_element_named "tbody"
      [View.Element "thead" [] []; View.Element "tbody" [] []]
      (View.Element "tbody" [] [])
  ∧ getTableWidthInPixels [0%nat] renderingEditor
    = getElementWidthInPixels
        (mapViewToDom renderingEditor (View.Element "tbody" [] [])).
Proof.
  assert (first_element_named "table"
    [View.Element "table" []
       [View.Element "thead" [] []; View.Element "tbody" [] []]]
    (View.Element "table" []
       [View.Element "thead" [] []; View.Element "tbody" [] []])) as Htable.
  { exists [], []. by repeat split. }
  assert (first_element_named "tbody"
      [View.Element "thead" [] []; View.Element "tbody" [] []]
      (View.Element "tbody" [] [])) as Hbody.
  { exists [View.Element "thead" [] []], []. repeat split. by repeat constructor. }
  split; [exact Htable|]. split; [exact Hbody|].
  by apply (proj1 (getTableWidthInPixels_body_group [0%nat] renderingEditor
                     tableFigure _ _ _ eq_refl eq_refl Htable eq_refl)).
Defined.


End FurtherInstances.
